(** * A shallow embedding of the CSP solver of [Assignment.py]

    The class [CSP] (constraint store, AC-3 propagation and backtracking
    search) is modelled over a small model of the Python objects it
    manipulates:

    - the values of a domain are Python ints and strs;
    - a slot of an assignment holds either a list of values or, after the
      statement [new_assignment[var] = value] of [backtrack], a bare value;
    - dicts keep insertion order, so they are association lists;
    - a raised exception ends the computation ([res]);
    - the [while] loop of [inference] and the recursion of [backtrack] take
      fuel; running out of fuel is [None]. *)

From Stdlib Require Import List String Ascii ZArith Bool Arith Lia.
Import ListNotations.

Open Scope string_scope.
Open Scope list_scope.

(* ================================================================= *)
(** ** Python values, sequences and exceptions *)

(** The values put in domains: ints and strs (immutable, compared by
    value). *)
Inductive pyval : Type :=
| PInt (z : Z)
| PStr (s : string).

Definition pyval_eqb (x y : pyval) : bool :=
  match x, y with
  | PInt a, PInt b => Z.eqb a b
  | PStr a, PStr b => String.eqb a b
  | _, _ => false
  end.

(** What [assignment[var]] can hold: a list of values, or a bare value. *)
Inductive pydom : Type :=
| DList (l : list pyval)
| DAtom (v : pyval).

Inductive exn : Type := KeyError | TypeError | AttributeError | ValueError.

Inductive res (A : Type) : Type :=
| Ok (a : A)
| Raise (e : exn).

Arguments Ok {A} a.
Arguments Raise {A} e.

Definition bind {A B : Type} (m : res A) (k : A -> res B) : res B :=
  match m with
  | Ok a => k a
  | Raise e => Raise e
  end.

Notation "x <- m ;; k" := (bind m (fun x => k))
  (at level 61, m at next level, right associativity).
Notation "' p <- m ;; k" := (bind m (fun x => let 'p := x in k))
  (at level 61, p pattern, m at next level, right associativity).

(** The characters of a str, each a str of length one: what iterating over
    a str yields. *)
Fixpoint chars (s : string) : list pyval :=
  match s with
  | EmptyString => []
  | String c r => PStr (String c EmptyString) :: chars r
  end.

(** [t in s] on strs: [t] occurs in [s] as a substring. *)
Fixpoint substring_of (t s : string) : bool :=
  String.prefix t s ||
  match s with
  | EmptyString => false
  | String _ r => substring_of t r
  end.

(** [len(d)] *)
Definition py_len (d : pydom) : res nat :=
  match d with
  | DList l => Ok (List.length l)
  | DAtom (PStr s) => Ok (String.length s)
  | DAtom (PInt _) => Raise TypeError
  end.

(** The elements [for x in d] visits when [d] is not mutated meanwhile. *)
Definition py_iter (d : pydom) : res (list pyval) :=
  match d with
  | DList l => Ok l
  | DAtom (PStr s) => Ok (chars s)
  | DAtom (PInt _) => Raise TypeError
  end.

(** [not d] *)
Definition py_not (d : pydom) : bool :=
  match d with
  | DList l => match l with [] => true | _ => false end
  | DAtom (PStr s) => match s with EmptyString => true | _ => false end
  | DAtom (PInt z) => Z.eqb z 0
  end.

(** [x in d] *)
Definition py_contains (x : pyval) (d : pydom) : res bool :=
  match d with
  | DList l => Ok (existsb (pyval_eqb x) l)
  | DAtom (PStr s) =>
      match x with
      | PStr t => Ok (substring_of t s)
      | PInt _ => Raise TypeError
      end
  | DAtom (PInt _) => Raise TypeError
  end.

(** [arc in t] for a pair and a list of pairs. *)
Definition pair_in (arc : pyval * pyval) (t : list (pyval * pyval)) : bool :=
  existsb (fun p => pyval_eqb (fst arc) (fst p) && pyval_eqb (snd arc) (snd p))
          t.

(** [l.remove(x)] on a list that holds [x]: the first occurrence goes. *)
Fixpoint remove_first (x : pyval) (l : list pyval) : list pyval :=
  match l with
  | [] => []
  | y :: r => if pyval_eqb x y then r else y :: remove_first x r
  end.

(** [q.pop()]: the last element and the list without it. *)
Fixpoint list_pop {A : Type} (q : list A) : option (A * list A) :=
  match q with
  | [] => None
  | x :: r =>
      match list_pop r with
      | None => Some (x, [])
      | Some (y, r') => Some (y, x :: r')
      end
  end.

(* ================================================================= *)
(** ** Dicts with str keys, in insertion order *)

Definition dict (V : Type) : Type := list (string * V).

Fixpoint dict_get {V : Type} (k : string) (d : dict V) : option V :=
  match d with
  | [] => None
  | (k', v) :: r => if String.eqb k k' then Some v else dict_get k r
  end.

(** [d[k] = v]: a key already present keeps its place. *)
Fixpoint dict_set {V : Type} (k : string) (v : V) (d : dict V) : dict V :=
  match d with
  | [] => [(k, v)]
  | (k', v') :: r =>
      if String.eqb k k' then (k', v) :: r else (k', v') :: dict_set k v r
  end.

Definition dict_keys {V : Type} (d : dict V) : list string := map fst d.

Definition dict_values {V : Type} (d : dict V) : list V := map snd d.

(** [k in d] *)
Definition dict_mem {V : Type} (k : string) (d : dict V) : bool :=
  match dict_get k d with
  | Some _ => true
  | None => false
  end.

(** [d[k]] as an expression *)
Definition dict_item {V : Type} (k : string) (d : dict V) : res V :=
  match dict_get k d with
  | Some v => Ok v
  | None => Raise KeyError
  end.

(* ================================================================= *)
(** ** The constraint store *)

Definition table : Type := list (pyval * pyval).
Definition arc : Type := (string * string)%type.
Definition assignment : Type := dict pydom.

Record CSP : Type := mkCSP {
  variables : list string;
  domains : dict (list pyval);
  constraints : dict (dict table);
  backtrack_counter : nat;
  backtrack_failure_counter : nat
}.

(** [CSP()] *)
Definition CSP_init : CSP := mkCSP [] [] [] 0 0.

Definition set_constraints (c : CSP) (cs : dict (dict table)) : CSP :=
  mkCSP (variables c) (domains c) cs
        (backtrack_counter c) (backtrack_failure_counter c).

Definition set_counters (c : CSP) (n f : nat) : CSP :=
  mkCSP (variables c) (domains c) (constraints c) n f.

Definition add_variable (c : CSP) (name : string) (domain : list pyval) : CSP :=
  mkCSP (variables c ++ [name])
        (dict_set name domain (domains c))
        (dict_set name [] (constraints c))
        (backtrack_counter c) (backtrack_failure_counter c).

(** [itertools.product(a, b)] *)
Definition get_all_possible_pairs {A : Type} (a b : list A) : list (A * A) :=
  list_prod a b.

Definition get_all_arcs (c : CSP) : list arc :=
  flat_map (fun im => map (fun j => (fst im, j)) (dict_keys (snd im)))
           (constraints c).

Definition get_all_neighboring_arcs (c : CSP) (var : string) : res (list arc) :=
  m <- dict_item var (constraints c) ;;
  Ok (map (fun i => (i, var)) (dict_keys m)).

Definition add_constraint_one_way (c : CSP) (i j : string)
    (filter_function : pyval -> pyval -> bool) : res CSP :=
  ci <- dict_item i (constraints c) ;;
  ci1 <- (if negb (dict_mem j ci) then
            di <- dict_item i (domains c) ;;
            dj <- dict_item j (domains c) ;;
            Ok (dict_set j (get_all_possible_pairs di dj) ci)
          else Ok ci) ;;
  pairs <- dict_item j ci1 ;;
  let legal := filter (fun value_pair =>
                         filter_function (fst value_pair) (snd value_pair))
                      pairs in
  Ok (set_constraints c (dict_set i (dict_set j legal ci1) (constraints c))).

(** [lambda x, y: x != y] *)
Definition not_equal (x y : pyval) : bool := negb (pyval_eqb x y).

Definition add_all_different_constraint (c : CSP) (var_list : list string)
    : res CSP :=
  fold_left
    (fun (acc : res CSP) (ij : string * string) =>
       c' <- acc ;;
       if String.eqb (fst ij) (snd ij) then Ok c'
       else add_constraint_one_way c' (fst ij) (snd ij) not_equal)
    (get_all_possible_pairs var_list var_list)
    (Ok c).

(* ================================================================= *)
(** ** The propagation engine *)

(** [sum(arc in self.constraints[i][j] for arc in arcs)]: the table is
    looked up once per arc, so not at all when [arcs] is empty. *)
Definition count_legal (c : CSP) (i j : string) (arcs : list (pyval * pyval))
    : res nat :=
  match arcs with
  | [] => Ok 0
  | _ :: _ =>
      ci <- dict_item i (constraints c) ;;
      t <- dict_item j ci ;;
      Ok (List.length (filter (fun arc => pair_in arc t) arcs))
  end.

(** The test of the [if] in the body of [revise]: no pair of [x] with a
    value of [dj] is in the table of [(i, j)]. *)
Definition unsupported (c : CSP) (i j : string) (x : pyval) (dj : pydom)
    : res bool :=
  ys <- py_iter dj ;;
  n <- count_legal c i j (get_all_possible_pairs [x] ys) ;;
  Ok (Nat.eqb n 0).

(** The [for] loop of [revise] over a list. The list iterator keeps an
    index [idx] into the list [l], which the body shortens; [revised] is
    the flag. [assignment[j]] is read again at every round, and is [l]
    itself when [j] is [i]. The loop runs at most [length l - idx] rounds,
    which is what [revise] gives as [fuel]. *)
Fixpoint revise_list (fuel : nat) (c : CSP) (a : assignment) (i j : string)
    (l : list pyval) (idx : nat) (revised : bool) : res (bool * list pyval) :=
  match fuel with
  | 0 => Ok (revised, l)
  | S fuel' =>
      match nth_error l idx with
      | None => Ok (revised, l)
      | Some x =>
          dj <- (if String.eqb j i then Ok (DList l) else dict_item j a) ;;
          u <- unsupported c i j x dj ;;
          if u then
            if existsb (pyval_eqb x) l && Nat.ltb 1 (List.length l) then
              revise_list fuel' c a i j (remove_first x l) (S idx) true
            else
              revise_list fuel' c a i j l (S idx) true
          else
            revise_list fuel' c a i j l (S idx) revised
      end
  end.

(** The same loop when [assignment[i]] is the str [s]: [xs] are the
    characters still to visit. A str has no [remove]. *)
Fixpoint revise_str (c : CSP) (a : assignment) (i j : string) (s : string)
    (xs : list pyval) (revised : bool) : res bool :=
  match xs with
  | [] => Ok revised
  | x :: rest =>
      dj <- dict_item j a ;;
      u <- unsupported c i j x dj ;;
      if u then
        isin <- py_contains x (DAtom (PStr s)) ;;
        if isin && Nat.ltb 1 (String.length s) then Raise AttributeError
        else revise_str c a i j s rest true
      else
        revise_str c a i j s rest revised
  end.

(** [revise] returns its flag; the assignment it has mutated is returned
    with it. *)
Definition revise (c : CSP) (a : assignment) (i j : string)
    : res (bool * assignment) :=
  di <- dict_item i a ;;
  match di with
  | DList l =>
      '(revised, l') <- revise_list (List.length l) c a i j l 0 false ;;
      Ok (revised, dict_set i (DList l') a)
  | DAtom (PStr s) =>
      revised <- revise_str c a i j s (chars s) false ;;
      Ok (revised, a)
  | DAtom (PInt _) => Raise TypeError
  end.

(** One round of the [while] loop of [inference]. *)
Inductive round : Type :=
| Return (b : bool) (a : assignment)
| Continue (a : assignment) (queue : list arc).

Definition inference_round (c : CSP) (a : assignment) (queue : list arc)
    : res round :=
  match list_pop queue with
  | None => Ok (Return true a)
  | Some ((i, j), queue1) =>
      '(revised, a1) <- revise c a i j ;;
      if revised then
        di <- dict_item i a1 ;;
        if py_not di then Ok (Return false a1)
        else
          arcs <- get_all_neighboring_arcs c i ;;
          Ok (Continue a1
                (fold_left
                   (fun q (k_ : arc) =>
                      if negb (String.eqb (fst k_) j) then q ++ [(fst k_, i)]
                      else q)
                   arcs queue1))
      else Ok (Continue a1 queue1)
  end.

(** [inference]: [None] when [fuel] rounds were not enough. *)
Fixpoint inference (fuel : nat) (c : CSP) (a : assignment) (queue : list arc)
    : option (res (bool * assignment)) :=
  match fuel with
  | 0 => None
  | S fuel' =>
      match inference_round c a queue with
      | Raise e => Some (Raise e)
      | Ok (Return b a1) => Some (Ok (b, a1))
      | Ok (Continue a1 queue1) => inference fuel' c a1 queue1
      end
  end.

(* ================================================================= *)
(** ** The search driver *)

(** [sum(len(domain) for domain in assignment.values())] *)
Definition sum_len (a : assignment) : res nat :=
  fold_left (fun (acc : res nat) (d : pydom) =>
               s <- acc ;; n <- py_len d ;; Ok (s + n))
            (dict_values a) (Ok 0).

(** The keys [min] compares: an int, or [float("inf")]. *)
Inductive sortkey : Type :=
| KInt (n : nat)
| KInf.

Definition key_lt (x y : sortkey) : bool :=
  match x, y with
  | KInt n, KInt m => Nat.ltb n m
  | KInt _, KInf => true
  | KInf, _ => false
  end.

(** The [key] function given to [min]. *)
Definition mrv_key (a : assignment) (var : string) : res sortkey :=
  d <- dict_item var a ;;
  n <- py_len d ;;
  Ok (if Nat.ltb n 2 then KInf else KInt n).

(** [min] keeps the item seen so far and replaces it by a next one only
    when the key of that one is strictly smaller. *)
Fixpoint py_min (a : assignment) (best : string) (kbest : sortkey)
    (rest : list string) : res string :=
  match rest with
  | [] => Ok best
  | v :: rest' =>
      k <- mrv_key a v ;;
      if key_lt k kbest then py_min a v k rest' else py_min a best kbest rest'
  end.

Definition select_unassigned_variable (a : assignment) : res string :=
  match dict_keys a with
  | [] => Raise ValueError
  | v :: rest => k <- mrv_key a v ;; py_min a v k rest
  end.

(** [new_assignment = copy.deepcopy(assignment); new_assignment[var] = value] *)
Definition branch_assignment (a : assignment) (var : string) (value : pyval)
    : assignment :=
  dict_set var (DAtom value) a.

(** [if result:] on what [backtrack] returns, a dict or [None]. *)
Definition truthy (result : option assignment) : bool :=
  match result with
  | Some (_ :: _) => true
  | _ => false
  end.

(** What [backtrack] gives: the assignment or [None], and the store with
    its counters; [None] at the outside when the fuel ran out. *)
Definition outcome : Type := option (res (option assignment * CSP)).

Section TryValues.

(** [self.inference] and the recursive call [self.backtrack], as the body
    of the loop sees them. *)
Variable infer : CSP -> assignment -> list arc -> option (res (bool * assignment)).
Variable recur : CSP -> assignment -> outcome.

(** The [for value in assignment[var]] loop of [backtrack], over the
    values [vals] still to try, and the two statements after it. *)
Fixpoint try_values (a : assignment) (var : string) (vals : list pyval)
    (c : CSP) : outcome :=
  match vals with
  | [] =>
      Some (Ok (None, set_counters c (backtrack_counter c)
                        (S (backtrack_failure_counter c))))
  | value :: rest =>
      let new_assignment := branch_assignment a var value in
      match infer c new_assignment (get_all_arcs c) with
      | None => None
      | Some (Raise e) => Some (Raise e)
      | Some (Ok (false, _)) => try_values a var rest c
      | Some (Ok (true, new_assignment1)) =>
          let c1 := set_counters c (S (backtrack_counter c))
                      (backtrack_failure_counter c) in
          match recur c1 new_assignment1 with
          | None => None
          | Some (Raise e) => Some (Raise e)
          | Some (Ok (result, c2)) =>
              if truthy result then Some (Ok (result, c2))
              else try_values a var rest c2
          end
      end
  end.

End TryValues.

Fixpoint backtrack (fuel : nat) (c : CSP) (a : assignment) {struct fuel}
    : outcome :=
  match fuel with
  | 0 => None
  | S fuel' =>
      match sum_len a with
      | Raise e => Some (Raise e)
      | Ok total =>
          if Nat.eqb total (List.length a) then Some (Ok (Some a, c))
          else
            match (var <- select_unassigned_variable a ;;
                   dv <- dict_item var a ;;
                   vals <- py_iter dv ;;
                   Ok (var, vals)) with
            | Raise e => Some (Raise e)
            | Ok (var, vals) =>
                try_values (inference fuel') (backtrack fuel') a var vals c
            end
      end
  end.

(** [copy.deepcopy(self.domains)]: every slot is a list. *)
Definition initial_assignment (c : CSP) : assignment :=
  map (fun kv => (fst kv, DList (snd kv))) (domains c).

Definition backtracking_search (fuel : nat) (c : CSP) : outcome :=
  let assignment := initial_assignment c in
  match inference fuel c assignment (get_all_arcs c) with
  | None => None
  | Some (Raise e) => Some (Raise e)
  | Some (Ok (_, a1)) => backtrack fuel (set_counters c 1 0) a1
  end.

(* ================================================================= *)
(** ** Stores used below *)

Definition add_constraint_two_way (c : CSP) (i j : string) : res CSP :=
  c1 <- add_constraint_one_way c i j not_equal ;;
  add_constraint_one_way c1 j i not_equal.

(** The builder of the map colouring problem, as in the source. *)
Definition create_map_coloring_csp : res CSP :=
  let states := ["WA"; "NT"; "Q"; "NSW"; "V"; "SA"; "T"] in
  let edges := [("SA", ["WA"; "NT"; "Q"; "NSW"; "V"]);
                ("NT", ["WA"; "Q"]); ("NSW", ["Q"; "V"])] in
  let colors := [PStr "red"; PStr "green"; PStr "blue"] in
  let csp := fold_left (fun c state => add_variable c state colors)
                       states CSP_init in
  fold_left
    (fun (acc : res CSP) (e : string * list string) =>
       fold_left (fun (acc : res CSP) (other_state : string) =>
                    c <- acc ;; add_constraint_two_way c (fst e) other_state)
                 (snd e) acc)
    edges (Ok csp).

(** Two variables with domain [[1]] and a not-equal constraint, both ways. *)
Definition two_ones : res CSP :=
  let c := add_variable (add_variable CSP_init "A" [PInt 1]) "B" [PInt 1] in
  add_constraint_two_way c "A" "B".

(** Three variables with domain [[1]], all different. *)
Definition three_ones : res CSP :=
  let c := add_variable (add_variable (add_variable CSP_init
             "A" [PInt 1]) "B" [PInt 1]) "C" [PInt 1] in
  add_all_different_constraint c ["A"; "B"; "C"].

(** Three variables with domain [['1', '2']], all different. *)
Definition three_of_two : res CSP :=
  let d := [PStr "1"; PStr "2"] in
  let c := add_variable (add_variable (add_variable CSP_init
             "A" d) "B" d) "C" d in
  add_all_different_constraint c ["A"; "B"; "C"].

(** One variable with two words as values, no constraint. *)
Definition one_word : CSP :=
  add_variable CSP_init "X" [PStr "ab"; PStr "cd"].

(** Two variables and a constraint added one way only, from A to B. *)
Definition one_way : res CSP :=
  let d := [PInt 1; PInt 2] in
  let c := add_variable (add_variable CSP_init "A" d) "B" d in
  add_constraint_one_way c "A" "B" not_equal.

(** Running a search on a store that was built without an exception. *)
Definition search_on (fuel : nat) (r : res CSP) : outcome :=
  match r with
  | Ok c => backtracking_search fuel c
  | Raise e => Some (Raise e)
  end.

Definition result_of (o : outcome) : option (res (option assignment)) :=
  match o with
  | None => None
  | Some (Raise e) => Some (Raise e)
  | Some (Ok (r, _)) => Some (Ok r)
  end.

(** The queue of the arcs of [three_ones], with [last] as its last arc. *)
Definition three_ones_queue (last : arc) : list arc :=
  [("A", "B"); ("A", "C"); ("B", "A"); ("B", "C"); ("C", "A"); last].

(** The store a builder made, the empty store if it raised. *)
Definition store_of (r : res CSP) : CSP :=
  match r with
  | Ok c => c
  | Raise _ => CSP_init
  end.

(* ================================================================= *)
(** ** Predicates of the specification *)

(** The constraint table of the arc [(i, j)], when there is one. *)
Definition table_of (c : CSP) (i j : string) : option table :=
  match dict_get i (constraints c) with
  | Some m => dict_get j m
  | None => None
  end.

(** The keys of the dict [constraints] are unique, as those of a dict are. *)
Definition wf_store (c : CSP) : Prop :=
  NoDup (dict_keys (constraints c)).

(** Every table has its reverse: constraints were added both ways. *)
Definition symmetric_tables (c : CSP) : Prop :=
  forall i j, table_of c i j <> None <-> table_of c j i <> None.

(** The values of the slot of [i]: the elements of the sequence kept there. *)
Definition values_of (a : assignment) (i : string) : option (list pyval) :=
  match dict_get i a with
  | Some d => match py_iter d with Ok xs => Some xs | Raise _ => None end
  | None => None
  end.

(** The number of values of the slot of [i]. *)
Definition size_of (a : assignment) (i : string) : option nat :=
  match dict_get i a with
  | Some d => match py_len d with Ok n => Some n | Raise _ => None end
  | None => None
  end.

(** For every table [(i, j)], every value of [i] has a compatible value
    of [j]. *)
Definition arc_consistent (c : CSP) (a : assignment) : Prop :=
  forall i j t, table_of c i j = Some t ->
    exists xs ys, values_of a i = Some xs /\ values_of a j = Some ys /\
      forall x, In x xs -> exists y, In y ys /\ In (x, y) t.

(** The same as a test, over the arcs that have a table. *)
Definition arc_consistentb (c : CSP) (a : assignment) : bool :=
  forallb
    (fun ij : arc =>
       match table_of c (fst ij) (snd ij),
             values_of a (fst ij), values_of a (snd ij) with
       | Some t, Some xs, Some ys =>
           forallb (fun x => existsb (fun y => pair_in (x, y) t) ys) xs
       | _, _, _ => false
       end)
    (get_all_arcs c).

(** No slot of the assignment is empty: [not d] is false for each. *)
Definition all_nonempty (a : assignment) : Prop :=
  Forall (fun d => py_not d = false) (dict_values a).

(** The slot of [i] has fewer values in [a'] than in [a]. *)
Definition shrunk (a a' : assignment) (i : string) : Prop :=
  exists n n', size_of a i = Some n /\ size_of a' i = Some n' /\ n' < n.

(** For every table [(i, j)], the value the assignment binds [i] to and
    the value it binds [j] to are a pair of the table. *)
Definition consistent (c : CSP) (a : assignment) : Prop :=
  forall i j t vi vj, table_of c i j = Some t ->
    values_of a i = Some [vi] -> values_of a j = Some [vj] -> In (vi, vj) t.

(** The size [select_unassigned_variable] compares for a slot of [n]
    values. *)
Definition mrv_size (n : nat) : sortkey :=
  if Nat.ltb n 2 then KInf else KInt n.

(* ================================================================= *)
(** ** Predicates for the store and for narrowing *)

(** The pairs a predicate lets through, as [add_constraint_one_way]
    filters them. *)
Definition legal_pairs (filter_function : pyval -> pyval -> bool)
    (pairs : table) : table :=
  filter (fun value_pair => filter_function (fst value_pair) (snd value_pair))
         pairs.

(** The pairs [add_constraint_one_way] starts from for the arc [(i, j)]:
    the table when there is one, else all pairs of the two domains. *)
Definition base_pairs (c : CSP) (i j : string) : option table :=
  match table_of c i j with
  | Some t => Some t
  | None =>
      match dict_get i (domains c), dict_get j (domains c) with
      | Some di, Some dj => Some (get_all_possible_pairs di dj)
      | _, _ => None
      end
  end.

(** The two dicts of a store have the same keys, each once, and these are
    the names in [variables]. *)
Definition store_coherent (c : CSP) : Prop :=
  dict_keys (domains c) = dict_keys (constraints c) /\
  NoDup (dict_keys (constraints c)) /\
  forall v, In v (variables c) <-> In v (dict_keys (constraints c)).

(** A slot is as it was, or is a list that lost some of its values. *)
Definition slot_le (d' d : pydom) : Prop :=
  d' = d \/
  exists l l', d = DList l /\ d' = DList l' /\ incl l' l /\
               List.length l' < List.length l.

(** [a'] has the keys of [a], in the same order, and slot by slot the
    same values or fewer. *)
Definition narrowed (a' a : assignment) : Prop :=
  Forall2 (fun kv' kv => fst kv' = fst kv /\ slot_le (snd kv') (snd kv)) a' a.

(** The fields of the store that the search only reads. *)
Definition same_store (c' c : CSP) : Prop :=
  variables c' = variables c /\ domains c' = domains c /\
  constraints c' = constraints c.

(** What holds between the assignment given to [backtrack] and the one it
    returns: the same keys, and lengths that add up to their number. *)
Definition shape (a a' : assignment) : Prop :=
  dict_keys a' = dict_keys a /\ sum_len a' = Ok (List.length a').

(** What holds between the store given to [backtrack] and the one it
    returns: only the counters move, upwards, and the failures counted are
    at most the visits counted plus one. *)
Definition counted (c c' : CSP) : Prop :=
  same_store c' c /\
  backtrack_counter c <= backtrack_counter c' /\
  backtrack_failure_counter c <= backtrack_failure_counter c' /\
  backtrack_failure_counter c' + backtrack_counter c
    <= backtrack_failure_counter c + backtrack_counter c' + 1.

(* ================================================================= *)
(** ** The builder of Sudoku stores *)

From Stdlib Require DecimalString.

(** ['%d' % n] *)
Definition format_d (n : nat) : string :=
  DecimalString.NilEmpty.string_of_uint (Nat.to_uint n).

(** ['%d-%d' % (row, col)] *)
Definition cell_name (row col : nat) : string :=
  String.append (format_d row) (String.append "-" (format_d col)).

(** What a builder can raise: [IndexError] from [board[row][col]], or an
    exception of the store. *)
Inductive build_exn : Type :=
| IndexError
| StoreError (e : exn).

Inductive built (A : Type) : Type :=
| Built (a : A)
| Failed (e : build_exn).

Arguments Built {A} a.
Arguments Failed {A} e.

(** [board[row][col]]: a str of one character, when the board has a line
    [row] and the line a character [col]. [board] is the list of the
    stripped lines of the file. *)
Definition board_item (board : list string) (row col : nat) : option string :=
  match nth_error board row with
  | None => None
  | Some line =>
      match String.get col line with
      | None => None
      | Some ch => Some (String ch EmptyString)
      end
  end.

(** The domain of a cell: [list(map(str, range(1, 10)))] for ['0'], else
    the character alone. *)
Definition sudoku_domain (ch : string) : list pyval :=
  if String.eqb ch "0" then map (fun n => PStr (format_d n)) (seq 1 9)
  else [PStr ch].

(** [(row, col)] for [row in range(9)], [col in range(9)]. *)
Definition sudoku_cells : list (nat * nat) := list_prod (seq 0 9) (seq 0 9).

(** The body of the first pair of loops. *)
Definition add_cell (board : list string) (acc : built CSP) (rc : nat * nat)
    : built CSP :=
  match acc with
  | Failed e => Failed e
  | Built csp =>
      match board_item board (fst rc) (snd rc) with
      | None => Failed IndexError
      | Some ch =>
          Built (add_variable csp (cell_name (fst rc) (snd rc))
                              (sudoku_domain ch))
      end
  end.

(** The lists given to [add_all_different_constraint], in the order of the
    calls: the rows, the columns, the boxes. *)
Definition sudoku_rows : list (list string) :=
  map (fun row => map (fun col => cell_name row col) (seq 0 9)) (seq 0 9).

Definition sudoku_cols : list (list string) :=
  map (fun col => map (fun row => cell_name row col) (seq 0 9)) (seq 0 9).

Definition sudoku_boxes : list (list string) :=
  flat_map
    (fun box_row =>
       map (fun box_col =>
              flat_map (fun row => map (fun col => cell_name row col)
                                       (seq (box_col * 3) 3))
                       (seq (box_row * 3) 3))
           (seq 0 3))
    (seq 0 3).

Definition sudoku_groups : list (list string) :=
  sudoku_rows ++ sudoku_cols ++ sudoku_boxes.

(** [add_all_different_constraint] called on each list in turn. *)
Definition add_groups (groups : list (list string)) (c : CSP) : res CSP :=
  fold_left (fun (acc : res CSP) (cells : list string) =>
               c' <- acc ;; add_all_different_constraint c' cells)
            groups (Ok c).

Definition create_sudoku_csp (board : list string) : built CSP :=
  match fold_left (add_cell board) sudoku_cells (Built CSP_init) with
  | Failed e => Failed e
  | Built csp =>
      match add_groups sudoku_groups csp with
      | Ok c => Built c
      | Raise e => Failed (StoreError e)
      end
  end.

(** Two names are distinct members of one of the lists. *)
Definition peers (groups : list (list string)) (i j : string) : Prop :=
  i <> j /\ exists g, In g groups /\ In i g /\ In j g.

(** Two cells are in the same row, the same column or the same box. *)
Definition same_unit (r1 c1 r2 c2 : nat) : bool :=
  Nat.eqb r1 r2 || Nat.eqb c1 c2 ||
  (Nat.eqb (r1 / 3) (r2 / 3) && Nat.eqb (c1 / 3) (c2 / 3)).

(** Every cell of the nine first lines has a character. *)
Definition board_ok (board : list string) : Prop :=
  forall row col, row < 9 -> col < 9 -> board_item board row col <> None.

(** [peers] as a test. *)
Definition peersb (groups : list (list string)) (i j : string) : bool :=
  negb (String.eqb i j) &&
  existsb (fun g => existsb (String.eqb i) g && existsb (String.eqb j) g)
          groups.

(** The domain the builder gives to the cell [rc] of a board. *)
Definition cell_domain (board : list string) (rc : nat * nat) : list pyval :=
  match board_item board (fst rc) (snd rc) with
  | Some ch => sudoku_domain ch
  | None => []
  end.

(** The first pair of loops when no [IndexError] stops it. *)
Definition register_cells (board : list string) (cells : list (nat * nat))
    (c : CSP) : CSP :=
  fold_left (fun c rc => add_variable c (cell_name (fst rc) (snd rc))
                                      (cell_domain board rc))
            cells c.

(** All pairs of different values of the domains of [i] and [j]. *)
Definition full_table (c : CSP) (i j : string) : option table :=
  match dict_get i (domains c), dict_get j (domains c) with
  | Some di, Some dj =>
      Some (legal_pairs not_equal (get_all_possible_pairs di dj))
  | _, _ => None
  end.

(** Every table of the store is the full table of its arc. *)
Definition tables_full (c : CSP) : Prop :=
  forall i j t, table_of c i j = Some t -> full_table c i j = Some t.

(** A board with 30 given digits. *)
Definition sample_board : list string :=
  ["530070000"; "600195000"; "098000060"; "800060003"; "400803001";
   "700020006"; "060000280"; "000419005"; "000080079"].

(** The store a builder made, the empty store if it failed. *)
Definition built_store (b : built CSP) : CSP :=
  match b with
  | Built c => c
  | Failed _ => CSP_init
  end.

(** [v in g] for a name and a list of names. *)
Definition inb (v : string) (g : list string) : bool :=
  existsb (String.eqb v) g.

(* ================================================================= *)
(** ** Solutions *)

(** [s] gives every variable a value that is in its table with the value
    of every variable it is constrained with. *)
Definition satisfies (c : CSP) (s : string -> pyval) : Prop :=
  forall i j t, table_of c i j = Some t -> In (s i, s j) t.

(** The value [s] gives to a variable is among the values of its slot. *)
Definition holds (a : assignment) (s : string -> pyval) : Prop :=
  forall k d, dict_get k a = Some d ->
    exists xs, py_iter d = Ok xs /\ In (s k) xs.

(** No variable is constrained with itself. *)
Definition no_self_table (c : CSP) : Prop :=
  forall i, table_of c i i = None.

(* ================================================================= *)
(** ** Values, dicts and queues *)

Lemma pyval_eqb_eq (x y : pyval) : pyval_eqb x y = true <-> x = y.
Proof.
  destruct x as [a|a], y as [b|b]; simpl; split; intro H;
    try discriminate; try (inversion H; subst).
  - apply Z.eqb_eq in H. now subst.
  - apply Z.eqb_refl.
  - apply String.eqb_eq in H. now subst.
  - apply String.eqb_refl.
Qed.

Lemma pyval_eqb_refl (x : pyval) : pyval_eqb x x = true.
Proof. now apply pyval_eqb_eq. Qed.

Lemma pair_in_In (arc : pyval * pyval) (t : list (pyval * pyval)) :
  pair_in arc t = true <-> In arc t.
Proof.
  unfold pair_in. rewrite existsb_exists. split.
  - intros ([x y] & Hin & H). apply andb_prop in H. destruct H as [H1 H2].
    apply pyval_eqb_eq in H1, H2. destruct arc. simpl in *. now subst.
  - intros H. exists arc. split; [exact H|].
    now rewrite !pyval_eqb_refl.
Qed.

Section DictFacts.

Context {V : Type}.
Implicit Types (d : dict V) (k : string) (v : V).

Lemma dict_get_set_same k v d : dict_get k (dict_set k v d) = Some v.
Proof.
  induction d as [|[k' v'] r IH]; simpl.
  - now rewrite String.eqb_refl.
  - destruct (String.eqb k k') eqn:E; simpl; rewrite E; auto.
Qed.

Lemma dict_get_set_other k k' v d :
  k' <> k -> dict_get k' (dict_set k v d) = dict_get k' d.
Proof.
  intros Hne. induction d as [|[k0 v0] r IH]; simpl.
  - apply String.eqb_neq in Hne. now rewrite Hne.
  - destruct (String.eqb k k0) eqn:E; simpl.
    + apply String.eqb_eq in E. subst k0.
      apply String.eqb_neq in Hne. now rewrite Hne.
    + now rewrite IH.
Qed.

Lemma dict_set_keys k v v0 d :
  dict_get k d = Some v0 -> dict_keys (dict_set k v d) = dict_keys d.
Proof.
  induction d as [|[k' v'] r IH]; simpl; [discriminate|].
  destruct (String.eqb k k'); simpl; intros H; [reflexivity|].
  f_equal. now apply IH.
Qed.

Lemma dict_set_id k v d : dict_get k d = Some v -> dict_set k v d = d.
Proof.
  induction d as [|[k' v'] r IH]; simpl; [discriminate|].
  destruct (String.eqb k k'); intros H.
  - now inversion H.
  - now rewrite IH.
Qed.

Lemma dict_get_In k v d : dict_get k d = Some v -> In (k, v) d.
Proof.
  induction d as [|[k' v'] r IH]; simpl; [discriminate|].
  destruct (String.eqb k k') eqn:E; intros H.
  - apply String.eqb_eq in E. inversion H. subst. now left.
  - right. auto.
Qed.

Lemma dict_get_keys k d : In k (dict_keys d) <-> dict_get k d <> None.
Proof.
  induction d as [|[k' v'] r IH]; simpl.
  - split; [tauto | congruence].
  - destruct (String.eqb k k') eqn:E.
    + apply String.eqb_eq in E. subst. split; [discriminate | auto].
    + apply String.eqb_neq in E. rewrite <- IH. split; [|tauto].
      intros [H|H]; [congruence | exact H].
Qed.

Lemma In_dict_get k v d : NoDup (dict_keys d) -> In (k, v) d -> dict_get k d = Some v.
Proof.
  induction d as [|[k' v'] r IH]; simpl; [tauto|].
  intros Hnd [H|H].
  - inversion H. subst. now rewrite String.eqb_refl.
  - inversion Hnd as [|? ? Hnotin Hnd']. subst.
    destruct (String.eqb k k') eqn:E.
    + apply String.eqb_eq in E. subst. exfalso. apply Hnotin.
      change (In k' (dict_keys r)). apply (in_map fst) in H. exact H.
    + auto.
Qed.

Lemma dict_set_values (P : V -> Prop) k v d :
  P v -> Forall P (dict_values d) -> Forall P (dict_values (dict_set k v d)).
Proof.
  intros Hv. induction d as [|[k' v'] r IH]; simpl; intros H.
  - constructor; auto.
  - inversion H; subst. destruct (String.eqb k k'); simpl; constructor; auto.
Qed.

Lemma dict_get_values (P : V -> Prop) k v d :
  Forall P (dict_values d) -> dict_get k d = Some v -> P v.
Proof.
  intros H Hg. apply dict_get_In in Hg.
  rewrite Forall_forall in H. apply H.
  change v with (snd (k, v)). now apply in_map.
Qed.

End DictFacts.

Lemma list_pop_snoc {A : Type} (q : list A) (x : A) :
  list_pop (q ++ [x]) = Some (x, q).
Proof.
  induction q as [|y r IH]; simpl; [reflexivity|]. now rewrite IH.
Qed.

Lemma list_pop_Some {A : Type} (q q' : list A) (x : A) :
  list_pop q = Some (x, q') -> q = q' ++ [x].
Proof.
  destruct q as [|y r] using rev_ind.
  - discriminate.
  - rewrite list_pop_snoc. intros H. now inversion H.
Qed.

(* ================================================================= *)
(** ** The constraint store: [add_variable] *)

(** C10. [add_variable] has no failure: called with a name that is already
    registered, it appends the name once more to [variables] (which then
    holds it at least twice) and binds the name to the new domain and to an
    empty row of constraint tables, whatever was bound before; the keys of
    both dicts, and what they bind other names to, stay as they were. *)
Theorem add_variable_duplicate (c : CSP) (name : string)
    (domain old_domain : list pyval) (old_tables : dict table) :
  In name (variables c) ->
  dict_get name (domains c) = Some old_domain ->
  dict_get name (constraints c) = Some old_tables ->
  let c' := add_variable c name domain in
  variables c' = variables c ++ [name] /\
  2 <= count_occ string_dec (variables c') name /\
  dict_get name (domains c') = Some domain /\
  dict_get name (constraints c') = Some [] /\
  dict_keys (domains c') = dict_keys (domains c) /\
  dict_keys (constraints c') = dict_keys (constraints c) /\
  forall k, k <> name ->
    dict_get k (domains c') = dict_get k (domains c) /\
    dict_get k (constraints c') = dict_get k (constraints c).
Proof.
  intros Hin Hd Hc. simpl. repeat split.
  - rewrite count_occ_app. simpl.
    destruct (string_dec name name) as [_|N]; [|congruence].
    apply (count_occ_In string_dec) in Hin. lia.
  - apply dict_get_set_same.
  - apply dict_get_set_same.
  - now apply dict_set_keys with (v0 := old_domain).
  - now apply dict_set_keys with (v0 := old_tables).
  - now apply dict_get_set_other.
  - now apply dict_get_set_other.
Qed.

Lemma add_variable_duplicate_witness :
  let c' := add_variable (store_of two_ones) "A" [PInt 7] in
  variables c' = ["A"; "B"; "A"] /\
  2 <= count_occ string_dec (variables c') "A" /\
  dict_get "A" (domains c') = Some [PInt 7] /\
  dict_get "A" (constraints c') = Some [] /\
  dict_keys (domains c') = ["A"; "B"] /\
  dict_keys (constraints c') = ["A"; "B"] /\
  forall k, k <> "A" ->
    dict_get k (domains c') = dict_get k (domains (store_of two_ones)) /\
    dict_get k (constraints c') = dict_get k (constraints (store_of two_ones)).
Proof.
  apply (add_variable_duplicate (store_of two_ones) "A" [PInt 7]
           [PInt 1] [("B", [])]).
  - simpl. auto.
  - reflexivity.
  - reflexivity.
Defined.

(* ================================================================= *)
(** ** Fuel: more of it does not change a result *)

Lemma inference_unfold (fuel : nat) (c : CSP) (a : assignment) (q : list arc) :
  inference (S fuel) c a q =
    match inference_round c a q with
    | Raise e => Some (Raise e)
    | Ok (Return b a1) => Some (Ok (b, a1))
    | Ok (Continue a1 q1) => inference fuel c a1 q1
    end.
Proof. reflexivity. Qed.

Lemma inference_fuel_mono (c : CSP) (n : nat) :
  forall m a q r,
    inference n c a q = Some r -> n <= m -> inference m c a q = Some r.
Proof.
  induction n as [|n IH]; intros m a q r H Hle; [discriminate|].
  destruct m as [|m]; [lia|]. rewrite inference_unfold in *.
  destruct (inference_round c a q) as [[b a1|a1 q1]|e]; auto.
  apply IH; [exact H | lia].
Qed.

Lemma try_values_mono
    (infer infer' : CSP -> assignment -> list arc ->
                    option (res (bool * assignment)))
    (recur recur' : CSP -> assignment -> outcome)
    (a : assignment) (var : string) :
  (forall c b q r, infer c b q = Some r -> infer' c b q = Some r) ->
  (forall c b r, recur c b = Some r -> recur' c b = Some r) ->
  forall vals c r,
    try_values infer recur a var vals c = Some r ->
    try_values infer' recur' a var vals c = Some r.
Proof.
  intros Hi Hr. induction vals as [|value rest IH]; intros c r; simpl; auto.
  destruct (infer c (branch_assignment a var value) (get_all_arcs c))
    as [ri|] eqn:Ei; [|discriminate].
  rewrite (Hi _ _ _ _ Ei). destruct ri as [[[|] na]|e]; auto.
  destruct (recur _ na) as [rr|] eqn:Er; [|discriminate].
  rewrite (Hr _ _ _ Er). destruct rr as [[result c2]|e]; auto.
  destruct (truthy result); auto.
Qed.

Lemma backtrack_fuel_mono (n : nat) :
  forall m c a r,
    backtrack n c a = Some r -> n <= m -> backtrack m c a = Some r.
Proof.
  induction n as [|n IH]; intros m c a r H Hle; [discriminate|].
  destruct m as [|m]; [lia|]. simpl in *.
  destruct (sum_len a) as [total|e]; auto.
  destruct (Nat.eqb total (List.length a)); auto.
  destruct (var <- select_unassigned_variable a ;;
            dv <- dict_item var a ;; vals <- py_iter dv ;; Ok (var, vals))
    as [[var vals]|e]; auto.
  apply try_values_mono with (3 := H).
  - intros c0 b q r0 H0. apply inference_fuel_mono with (1 := H0). lia.
  - intros c0 b r0 H0. apply IH; [exact H0 | lia].
Qed.

Lemma backtracking_search_fuel_mono (n k : nat) (c : CSP)
    (r : res (option assignment * CSP)) :
  backtracking_search n c = Some r -> backtracking_search (n + k) c = Some r.
Proof.
  unfold backtracking_search.
  destruct (inference n c (initial_assignment c) (get_all_arcs c))
    as [ri|] eqn:Ei; [|discriminate].
  rewrite (inference_fuel_mono c n (n + k) _ _ _ Ei) by lia.
  destruct ri as [[b a1]|e]; auto.
  intros H. apply backtrack_fuel_mono with (1 := H). lia.
Qed.

Lemma search_on_fuel_mono (n k : nat) (b : res CSP)
    (x : res (option assignment)) :
  result_of (search_on n b) = Some x ->
  result_of (search_on (n + k) b) = Some x.
Proof.
  destruct b as [c|e]; simpl; auto.
  destruct (backtracking_search n c) as [r|] eqn:E; [|discriminate].
  now rewrite (backtracking_search_fuel_mono n k c r E).
Qed.

(* ================================================================= *)
(** ** Runs of the search driver *)

(** C2. On two variables with domain [[1]] and a not-equal constraint in
    both directions, [backtracking_search] returns the assignment that
    binds both variables to [1], not [None]. *)
Theorem two_ones_search_returns_assignment (k : nat) :
  result_of (search_on (3 + k) two_ones) =
    Some (Ok (Some [("A", DList [PInt 1]); ("B", DList [PInt 1])])).
Proof. apply search_on_fuel_mono. vm_compute. reflexivity. Qed.

(** C1. On three variables with domain [['1', '2']] that must all differ,
    [backtracking_search] returns an assignment, and the values it gives
    to A and B are not a pair of the table of (A, B). *)
Theorem three_of_two_search_inconsistent :
  exists a,
    (forall k, result_of (search_on (30 + k) three_of_two)
               = Some (Ok (Some a))) /\
    values_of a "A" = Some [PStr "1"] /\
    values_of a "B" = Some [PStr "1"] /\
    table_of (store_of three_of_two) "A" "B" =
      Some [(PStr "1", PStr "2"); (PStr "2", PStr "1")] /\
    ~ consistent (store_of three_of_two) a.
Proof.
  exists [("A", DAtom (PStr "1")); ("B", DList [PStr "1"]);
          ("C", DList [PStr "2"])].
  split; [intros k; apply search_on_fuel_mono; vm_compute; reflexivity|].
  split; [reflexivity|]. split; [reflexivity|]. split; [reflexivity|].
  intros H.
  specialize (H "A" "B" _ (PStr "1") (PStr "1")
                eq_refl eq_refl eq_refl).
  simpl in H. destruct H as [H|[H|[]]]; discriminate.
Qed.

(** C4. The slot [backtrack] makes for a candidate is the candidate itself,
    not a list holding it: for the candidate ['ab'] its elements are ['a']
    and ['b']. The search on one variable with the values ['ab'] and ['cd']
    returns X bound to the str ['a'], and the search on the map colouring
    store of the source raises [AttributeError]. *)
Theorem branch_slot_is_bare_value :
  (forall a var value, dict_get var a <> None ->
     dict_get var (branch_assignment a var value) = Some (DAtom value)) /\
  values_of (branch_assignment (initial_assignment one_word) "X" (PStr "ab"))
            "X" = Some [PStr "a"; PStr "b"] /\
  (forall k, result_of (search_on (3 + k) (Ok one_word)) =
             Some (Ok (Some [("X", DAtom (PStr "a"))]))) /\
  (forall k, result_of (search_on (100 + k) create_map_coloring_csp) =
             Some (Raise AttributeError)).
Proof.
  split; [|split; [|split]].
  - intros a var value _. apply dict_get_set_same.
  - reflexivity.
  - intros k. apply search_on_fuel_mono. vm_compute. reflexivity.
  - intros k. apply search_on_fuel_mono. vm_compute. reflexivity.
Qed.

(* ================================================================= *)
(** ** A run of [inference] that does not end *)

Lemma three_ones_rounds :
  let c := store_of three_ones in
  let a := initial_assignment c in
  inference_round c a (three_ones_queue ("C", "B")) =
    Ok (Continue a (three_ones_queue ("A", "C"))) /\
  inference_round c a (three_ones_queue ("A", "C")) =
    Ok (Continue a (three_ones_queue ("B", "A"))) /\
  inference_round c a (three_ones_queue ("B", "A")) =
    Ok (Continue a (three_ones_queue ("C", "B"))).
Proof. vm_compute. repeat split; reflexivity. Qed.

Lemma three_ones_cycle (fuel : nat) :
  let c := store_of three_ones in
  let a := initial_assignment c in
  inference fuel c a (three_ones_queue ("C", "B")) = None /\
  inference fuel c a (three_ones_queue ("A", "C")) = None /\
  inference fuel c a (three_ones_queue ("B", "A")) = None.
Proof.
  intros c a. destruct three_ones_rounds as (R1 & R2 & R3).
  fold c a in R1, R2, R3.
  induction fuel as [|n (I1 & I2 & I3)]; [repeat split; reflexivity|].
  rewrite !inference_unfold, R1, R2, R3. auto.
Qed.

(** C3. On three variables with domain [[1]] that must all differ, the
    loop of [inference], started with all arcs in the queue, is still
    running after any number of rounds: the queue always holds six arcs.
    So [backtracking_search], which starts with this call, does not return
    either. *)
Theorem three_ones_inference_never_returns :
  get_all_arcs (store_of three_ones) = three_ones_queue ("C", "B") /\
  (forall fuel,
     inference fuel (store_of three_ones)
               (initial_assignment (store_of three_ones))
               (get_all_arcs (store_of three_ones)) = None) /\
  (forall fuel, search_on fuel three_ones = None).
Proof.
  assert (E : get_all_arcs (store_of three_ones) = three_ones_queue ("C", "B"))
    by reflexivity.
  assert (F : forall fuel,
     inference fuel (store_of three_ones)
               (initial_assignment (store_of three_ones))
               (get_all_arcs (store_of three_ones)) = None).
  { intros fuel. rewrite E. apply (three_ones_cycle fuel). }
  split; [exact E|]. split; [exact F|].
  intros fuel. change (search_on fuel three_ones)
    with (backtracking_search fuel (store_of three_ones)).
  unfold backtracking_search. cbv zeta. now rewrite F.
Qed.

(* ================================================================= *)
(** ** [revise] *)

Lemma remove_first_length (x : pyval) (l : list pyval) :
  existsb (pyval_eqb x) l = true ->
  S (List.length (remove_first x l)) = List.length l.
Proof.
  induction l as [|y r IH]; simpl; [discriminate|].
  destruct (pyval_eqb x y); simpl; intros H; [reflexivity|].
  now rewrite IH.
Qed.

Lemma nth_error_existsb (x : pyval) (l : list pyval) (idx : nat) :
  nth_error l idx = Some x -> existsb (pyval_eqb x) l = true.
Proof.
  intros H. apply existsb_exists. exists x. split.
  - now apply nth_error_In in H.
  - apply pyval_eqb_refl.
Qed.

Lemma filter_length_pos {A : Type} (f : A -> bool) (l : list A) (e : A) :
  In e l -> f e = true -> Nat.eqb (List.length (filter f l)) 0 = false.
Proof.
  intros Hin Hf.
  assert (H : In e (filter f l)) by (apply filter_In; auto).
  destruct (filter f l); [destruct H | reflexivity].
Qed.

Section ReviseFacts.

Variable c : CSP.
Variable a : assignment.
Variables i j : string.

(** What the loop does to the list and to its flag. *)
Lemma revise_list_inv (fuel : nat) :
  forall l idx revised b l',
    revise_list fuel c a i j l idx revised = Ok (b, l') ->
    List.length l' <= List.length l /\
    (1 <= List.length l -> 1 <= List.length l') /\
    (revised = true -> b = true) /\
    (List.length l' < List.length l -> b = true) /\
    (b = true -> revised = false -> 2 <= List.length l ->
     List.length l' < List.length l).
Proof.
  induction fuel as [|n IH]; intros l idx revised b l'; simpl.
  - intros H. inversion H. subst. repeat split; auto; try lia.
    intros -> E. discriminate.
  - destruct (nth_error l idx) as [x|] eqn:Hx.
    2:{ intros H. inversion H. subst. repeat split; auto; try lia.
        intros -> E. discriminate. }
    destruct (if String.eqb j i then Ok (DList l) else dict_item j a)
      as [dj|e]; simpl; [|discriminate].
    destruct (unsupported c i j x dj) as [[|]|e]; simpl; [| |discriminate].
    + pose proof (nth_error_existsb _ _ _ Hx) as Hin. rewrite Hin. simpl.
      destruct (Nat.ltb 1 (List.length l)) eqn:Hlen.
      * apply Nat.ltb_lt in Hlen.
        pose proof (remove_first_length _ _ Hin) as Hrm.
        intros H. apply IH in H. destruct H as (H1 & H2 & H3 & H4 & H5).
        repeat split; auto; lia.
      * apply Nat.ltb_ge in Hlen.
        intros H. apply IH in H. destruct H as (H1 & H2 & H3 & H4 & H5).
        repeat split; auto. lia.
    + intros H. apply IH in H. destruct H as (H1 & H2 & H3 & H4 & H5).
      repeat split; auto.
Qed.

(** The fuel [revise] gives to the loop is enough: with at least
    [length l - idx] rounds allowed, the loop ends by itself. *)
Lemma revise_list_fuel (n : nat) :
  forall m l idx revised,
    List.length l - idx <= n -> List.length l - idx <= m ->
    revise_list n c a i j l idx revised = revise_list m c a i j l idx revised.
Proof.
  induction n as [|n IH]; intros m l idx revised Hn Hm.
  - assert (Hx : nth_error l idx = None) by (apply nth_error_None; lia).
    destruct m; simpl; [reflexivity|]. now rewrite Hx.
  - destruct m as [|m].
    + assert (Hx : nth_error l idx = None) by (apply nth_error_None; lia).
      simpl. now rewrite Hx.
    + simpl. destruct (nth_error l idx) as [x|] eqn:Hx; [|reflexivity].
      assert (Hlt : idx < List.length l)
        by (apply nth_error_Some; congruence).
      destruct (if String.eqb j i then Ok (DList l) else dict_item j a)
        as [dj|e]; simpl; [|reflexivity].
      destruct (unsupported c i j x dj) as [[|]|e]; simpl; [| |reflexivity].
      * pose proof (nth_error_existsb _ _ _ Hx) as Hin. rewrite Hin. simpl.
        pose proof (remove_first_length _ _ Hin) as Hrm.
        destruct (Nat.ltb 1 (List.length l)); apply IH; lia.
      * apply IH; lia.
Qed.

Lemma char_in_str (x : pyval) (s : string) :
  In x (chars s) -> py_contains x (DAtom (PStr s)) = Ok true.
Proof.
  induction s as [|c0 r IH]; simpl; [tauto|].
  intros [H|H].
  - subst x. simpl. destruct (ascii_dec c0 c0) as [_|N]; [|congruence].
    destruct r; reflexivity.
  - specialize (IH H). destruct x as [z|t]; simpl in *; [discriminate|].
    inversion IH as [E]. rewrite E. now rewrite orb_true_r.
Qed.

Lemma chars_length (s : string) : List.length (chars s) = String.length s.
Proof. induction s; simpl; auto. Qed.

(** On a str the loop either leaves the flag as it was, or the str has one
    character. *)
Lemma revise_str_true (s : string) (xs : list pyval) :
  incl xs (chars s) ->
  forall revised,
    revise_str c a i j s xs revised = Ok true ->
    revised = true \/ String.length s = 1.
Proof.
  induction xs as [|x rest IH]; intros Hincl revised; cbn [revise_str bind].
  - intros H. inversion H. now left.
  - assert (Hx : In x (chars s)) by (apply Hincl; now left).
    assert (Hrest : incl rest (chars s))
      by (intros y Hy; apply Hincl; now right).
    destruct (dict_item j a) as [dj|e]; cbn [bind]; [|discriminate].
    destruct (unsupported c i j x dj) as [[|]|e]; cbn [bind];
      [| |discriminate].
    + rewrite (char_in_str _ _ Hx). cbn [bind andb].
      destruct (Nat.ltb 1 (String.length s)) eqn:Hlen; [discriminate|].
      intros _. right. apply Nat.ltb_ge in Hlen.
      rewrite <- chars_length in *.
      destruct (chars s); [destruct Hx | simpl in *; lia].
    + now apply IH.
Qed.

(** The two ways [revise] returns. *)
Lemma revise_inv (b : bool) (a' : assignment) :
  revise c a i j = Ok (b, a') ->
  (exists l l', dict_get i a = Some (DList l) /\
     revise_list (List.length l) c a i j l 0 false = Ok (b, l') /\
     a' = dict_set i (DList l') a) \/
  (exists s, dict_get i a = Some (DAtom (PStr s)) /\
     revise_str c a i j s (chars s) false = Ok b /\ a' = a).
Proof.
  unfold revise, dict_item.
  destruct (dict_get i a) as [[l|[z|s]]|]; simpl; try discriminate.
  - destruct (revise_list (List.length l) c a i j l 0 false)
      as [[b0 l']|e] eqn:E; simpl; [|discriminate].
    intros H. inversion H. subst. left. eauto.
  - destruct (revise_str c a i j s (chars s) false) as [b0|e] eqn:E;
      simpl; [|discriminate].
    intros H. inversion H. subst. right. eauto.
Qed.

Lemma size_of_set_list (l : list pyval) (a0 : assignment) :
  size_of (dict_set i (DList l) a0) i = Some (List.length l).
Proof. unfold size_of. now rewrite dict_get_set_same. Qed.

(** A removal makes [revise] return true. *)
Lemma revise_shrunk_true (b : bool) (a' : assignment) :
  revise c a i j = Ok (b, a') -> shrunk a a' i -> b = true.
Proof.
  intros H (n & n' & Hn & Hn' & Hlt).
  destruct (revise_inv _ _ H) as [(l & l' & Hg & Hl & ->)|(s & Hg & Hs & ->)].
  - rewrite size_of_set_list in Hn'. unfold size_of in Hn.
    rewrite Hg in Hn. simpl in Hn. inversion Hn. inversion Hn'. subst.
    apply revise_list_inv in Hl. destruct Hl as (_ & _ & _ & H4 & _). auto.
  - rewrite Hn in Hn'. inversion Hn'. lia.
Qed.

(** On a slot that does not hold exactly one value, [revise] returns true
    only after a removal. *)
Lemma revise_true_shrunk (b : bool) (a' : assignment) (n : nat) :
  revise c a i j = Ok (b, a') -> size_of a i = Some n -> n <> 1 ->
  b = true -> shrunk a a' i.
Proof.
  intros H Hn Hne Hb. subst b. unfold size_of in Hn.
  destruct (revise_inv _ _ H) as [(l & l' & Hg & Hl & ->)|(s & Hg & Hs & ->)];
    rewrite Hg in Hn; simpl in Hn; inversion Hn; subst n.
  - exists (List.length l), (List.length l'). split; [|split].
    + unfold size_of. now rewrite Hg.
    + apply size_of_set_list.
    + pose proof (revise_list_inv _ _ _ _ _ _ Hl) as (H1 & _ & _ & _ & H5).
      destruct (le_lt_dec 2 (List.length l)) as [Hge|Hlt]; [now apply H5|].
      exfalso. destruct l as [|x [|y r]]; simpl in *; try lia.
      discriminate Hl.
  - apply revise_str_true in Hs; [|apply incl_refl].
    destruct Hs as [Hs|Hs]; [discriminate | contradiction].
Qed.

(** [revise] empties no slot. *)
Lemma revise_nonempty (b : bool) (a' : assignment) :
  all_nonempty a -> revise c a i j = Ok (b, a') -> all_nonempty a'.
Proof.
  intros Hne H.
  destruct (revise_inv _ _ H) as [(l & l' & Hg & Hl & ->)|(s & Hg & Hs & ->)];
    [|exact Hne].
  apply dict_set_values; [|exact Hne].
  pose proof (dict_get_values _ _ _ _ Hne Hg) as Hl0. simpl in Hl0.
  apply revise_list_inv in Hl. destruct Hl as (_ & H2 & _).
  destruct l as [|x r]; [discriminate|].
  destruct l'; [simpl in H2; lia | reflexivity].
Qed.

(** After a removal the slot of [i] still holds a value. *)
Lemma revise_shrunk_nonempty (b : bool) (a' : assignment) :
  revise c a i j = Ok (b, a') -> shrunk a a' i ->
  exists d, dict_get i a' = Some d /\ py_not d = false.
Proof.
  intros H (n & n' & Hn & Hn' & Hlt).
  destruct (revise_inv _ _ H) as [(l & l' & Hg & Hl & ->)|(s & Hg & Hs & ->)].
  - rewrite size_of_set_list in Hn'. unfold size_of in Hn.
    rewrite Hg in Hn. simpl in Hn. inversion Hn. inversion Hn'. subst.
    exists (DList l'). split; [apply dict_get_set_same|].
    pose proof (revise_list_inv _ _ _ _ _ _ Hl) as (_ & H2 & _).
    destruct l'; [simpl in *; lia | reflexivity].
  - rewrite Hn in Hn'. inversion Hn'. lia.
Qed.

End ReviseFacts.

(** Where the flag of [revise] does tell a removal: a removal always
    gives true, and true comes without a removal only on a slot of exactly
    one value. *)
Lemma revise_true_iff_removed (c : CSP) (a a' : assignment) (i j : string)
    (b : bool) (n : nat) :
  revise c a i j = Ok (b, a') ->
  size_of a i = Some n ->
  (shrunk a a' i -> b = true) /\
  (n <> 1 -> (b = true <-> shrunk a a' i)).
Proof.
  intros H Hn. split; [now apply revise_shrunk_true with (1 := H)|].
  intros Hne. split.
  - now apply revise_true_shrunk with (1 := H) (2 := Hn).
  - now apply revise_shrunk_true with (1 := H).
Qed.

Lemma revise_true_iff_removed_witness :
  (shrunk [("A", DList [PInt 1; PInt 2]); ("B", DList [PInt 1])]
          [("A", DList [PInt 2]); ("B", DList [PInt 1])] "A" ->
   true = true) /\
  (2 <> 1 ->
   (true = true <->
    shrunk [("A", DList [PInt 1; PInt 2]); ("B", DList [PInt 1])]
           [("A", DList [PInt 2]); ("B", DList [PInt 1])] "A")).
Proof.
  apply (revise_true_iff_removed (store_of one_way)
           [("A", DList [PInt 1; PInt 2]); ("B", DList [PInt 1])]
           [("A", DList [PInt 2]); ("B", DList [PInt 1])] "A" "B" true 2).
  - reflexivity.
  - reflexivity.
Defined.

(** C5. On two variables with domain [[1]] and a not-equal constraint,
    the one value of A has no partner in B: the table of (A, B) is empty and
    the value fails the test of [revise]. [revise] on the arc (A, B) returns
    true, and the assignment is as it was: the value is still the value of A,
    nothing was removed. *)
Theorem revise_true_nothing_removed :
  table_of (store_of two_ones) "A" "B" = Some [] /\
  values_of (initial_assignment (store_of two_ones)) "A" = Some [PInt 1] /\
  unsupported (store_of two_ones) "A" "B" (PInt 1) (DList [PInt 1])
    = Ok true /\
  revise (store_of two_ones) (initial_assignment (store_of two_ones)) "A" "B"
    = Ok (true, initial_assignment (store_of two_ones)) /\
  ~ shrunk (initial_assignment (store_of two_ones))
           (initial_assignment (store_of two_ones)) "A".
Proof.
  split; [reflexivity|]. split; [reflexivity|]. split; [reflexivity|].
  split; [reflexivity|].
  intros (n & n' & Hn & Hn' & Hlt). rewrite Hn in Hn'. inversion Hn'. lia.
Qed.

(* ================================================================= *)
(** ** [inference] on assignments without an empty slot *)

Lemma revise_shrunk_size (c : CSP) (a a' : assignment) (i j : string)
    (b : bool) :
  revise c a i j = Ok (b, a') -> shrunk a a' i ->
  exists n, size_of a i = Some n /\ 2 <= n.
Proof.
  intros H Hs.
  destruct (revise_shrunk_nonempty _ _ _ _ _ _ H Hs) as (d & Hd & Hnot).
  destruct Hs as (n & n' & Hn & Hn' & Hlt).
  exists n. split; [exact Hn|].
  unfold size_of in Hn'. rewrite Hd in Hn'.
  destruct d as [[|x r]|[z|[|ch s]]]; simpl in *; try discriminate;
    inversion Hn'; lia.
Qed.

(** A round started without an empty slot does not return false, and
    leaves no empty slot. *)
Lemma inference_round_nonempty (c : CSP) (a : assignment) (q : list arc)
    (r : round) :
  all_nonempty a -> inference_round c a q = Ok r ->
  match r with
  | Return b a1 => b = true /\ all_nonempty a1
  | Continue a1 _ => all_nonempty a1
  end.
Proof.
  intros Hne. unfold inference_round.
  destruct (list_pop q) as [[[i j] q1]|].
  2:{ intros H. inversion H. auto. }
  destruct (revise c a i j) as [[revised a1]|e] eqn:Hr; cbn [bind];
    [|discriminate].
  pose proof (revise_nonempty _ _ _ _ _ _ Hne Hr) as Hne1.
  destruct revised.
  - unfold dict_item. destruct (dict_get i a1) as [di|] eqn:Hg; cbn [bind];
      [|discriminate].
    rewrite (dict_get_values _ _ _ _ Hne1 Hg).
    destruct (get_all_neighboring_arcs c i); cbn [bind]; [|discriminate].
    intros H. inversion H. exact Hne1.
  - intros H. inversion H. exact Hne1.
Qed.

Lemma inference_nonempty (c : CSP) (fuel : nat) :
  forall a q b a',
    all_nonempty a -> inference fuel c a q = Some (Ok (b, a')) ->
    b = true /\ all_nonempty a'.
Proof.
  induction fuel as [|n IH]; intros a q b a' Hne; [discriminate|].
  rewrite inference_unfold.
  destruct (inference_round c a q) as [[b1 a1|a1 q1]|e] eqn:Hr;
    [| |discriminate].
  - apply (inference_round_nonempty _ _ _ _ Hne) in Hr.
    intros H. inversion H. subst. exact Hr.
  - apply (inference_round_nonempty _ _ _ _ Hne) in Hr.
    now apply IH.
Qed.

(** C7. From an assignment without an empty slot, [revise] leaves no
    empty slot and removes a value only from a slot of two values or more;
    and [inference], for every queue and whenever it returns, returns true
    and leaves no empty slot: its [return False] is not reached. *)
Theorem inference_never_empties (c : CSP) (a : assignment) :
  all_nonempty a ->
  (forall i j b a', revise c a i j = Ok (b, a') ->
     all_nonempty a' /\
     (shrunk a a' i -> exists n, size_of a i = Some n /\ 2 <= n)) /\
  (forall fuel queue b a',
     inference fuel c a queue = Some (Ok (b, a')) ->
     b = true /\ all_nonempty a').
Proof.
  intros Hne. split.
  - intros i j b a' H. split.
    + now apply revise_nonempty with (2 := H).
    + now apply revise_shrunk_size with (1 := H).
  - intros fuel queue b a'. now apply inference_nonempty.
Qed.

Lemma inference_never_empties_witness :
  true = true /\
  all_nonempty [("A", DList [PInt 2]); ("B", DList [PInt 1])].
Proof.
  apply (proj2 (inference_never_empties (store_of one_way)
                  [("A", DList [PInt 1; PInt 2]); ("B", DList [PInt 1])]
                  ltac:(repeat constructor))
           5 (get_all_arcs (store_of one_way)) true
           [("A", DList [PInt 2]); ("B", DList [PInt 1])]).
  reflexivity.
Defined.

(* ================================================================= *)
(** ** [inference] on an arc-consistent assignment *)

Lemma get_all_arcs_table (c : CSP) (i j : string) :
  wf_store c -> In (i, j) (get_all_arcs c) -> table_of c i j <> None.
Proof.
  unfold get_all_arcs, table_of. intros Hwf H.
  apply in_flat_map in H. destruct H as ([i0 m] & Him & H).
  apply in_map_iff in H. destruct H as (j0 & E & Hj). simpl in *.
  inversion E. subst.
  rewrite (In_dict_get _ _ _ Hwf Him). now apply dict_get_keys.
Qed.

Lemma table_get_all_arcs (c : CSP) (i j : string) :
  table_of c i j <> None -> In (i, j) (get_all_arcs c).
Proof.
  unfold get_all_arcs, table_of.
  destruct (dict_get i (constraints c)) as [m|] eqn:Hi; [|congruence].
  intros Hj. apply in_flat_map. exists (i, m). split.
  - now apply dict_get_In.
  - simpl. apply in_map. now apply dict_get_keys.
Qed.

Lemma values_of_inv (a : assignment) (i : string) (xs : list pyval) :
  values_of a i = Some xs ->
  exists d, dict_get i a = Some d /\ py_iter d = Ok xs.
Proof.
  unfold values_of. destruct (dict_get i a) as [d|]; [|discriminate].
  destruct (py_iter d) as [l|e] eqn:E; [|discriminate].
  intros H. inversion H. subst. eauto.
Qed.

Section Supported.

Variable c : CSP.
Variable a : assignment.
Variables i j : string.
Variable t : table.
Hypothesis Ht : table_of c i j = Some t.

Lemma unsupported_false (x y : pyval) (dj : pydom) (ys : list pyval) :
  py_iter dj = Ok ys -> In y ys -> In (x, y) t ->
  unsupported c i j x dj = Ok false.
Proof.
  intros Hys Hy Hxy. unfold unsupported. rewrite Hys. cbn [bind].
  assert (Hin : In (x, y) (get_all_possible_pairs [x] ys)).
  { unfold get_all_possible_pairs. apply in_prod; [now left | exact Hy]. }
  unfold count_legal.
  destruct (get_all_possible_pairs [x] ys) as [|p ps] eqn:Ep;
    [destruct Hin|]. rewrite <- Ep in *.
  unfold table_of in Ht. unfold dict_item.
  destruct (dict_get i (constraints c)) as [m|]; [|discriminate].
  cbn [bind]. rewrite Ht. cbn [bind]. f_equal.
  apply filter_length_pos with (e := (x, y)); [exact Hin|].
  apply pair_in_In. exact Hxy.
Qed.

(** When every value has a support the loop changes nothing. *)
Lemma revise_list_supported (l : list pyval) (dj : pydom) (ys : list pyval)
    (fuel : nat) :
  (if String.eqb j i then Ok (DList l) else dict_item j a) = Ok dj ->
  py_iter dj = Ok ys ->
  (forall x, In x l -> exists y, In y ys /\ In (x, y) t) ->
  forall idx revised,
    revise_list fuel c a i j l idx revised = Ok (revised, l).
Proof.
  intros Hdj Hys Hsup. induction fuel as [|n IH]; intros idx revised;
    [reflexivity|]. cbn [revise_list].
  destruct (nth_error l idx) as [x|] eqn:Hx; [|reflexivity].
  rewrite Hdj. cbn [bind].
  destruct (Hsup x (nth_error_In _ _ Hx)) as (y & Hy & Hxy).
  rewrite (unsupported_false x y dj ys Hys Hy Hxy). cbn [bind].
  apply IH.
Qed.

Lemma revise_str_supported (s : string) (dj : pydom) (ys : list pyval) :
  dict_item j a = Ok dj ->
  py_iter dj = Ok ys ->
  forall xs revised,
    (forall x, In x xs -> exists y, In y ys /\ In (x, y) t) ->
    revise_str c a i j s xs revised = Ok revised.
Proof.
  intros Hdj Hys. induction xs as [|x rest IH]; intros revised Hsup;
    [reflexivity|]. cbn [revise_str]. rewrite Hdj. cbn [bind].
  destruct (Hsup x (or_introl eq_refl)) as (y & Hy & Hxy).
  rewrite (unsupported_false x y dj ys Hys Hy Hxy). cbn [bind].
  apply IH. intros z Hz. apply Hsup. now right.
Qed.

Lemma revise_supported (xs ys : list pyval) :
  values_of a i = Some xs -> values_of a j = Some ys ->
  (forall x, In x xs -> exists y, In y ys /\ In (x, y) t) ->
  revise c a i j = Ok (false, a).
Proof.
  intros Hxs Hys Hsup.
  destruct (values_of_inv _ _ _ Hxs) as (di & Hdi & Hixs).
  destruct (values_of_inv _ _ _ Hys) as (dj & Hdj & Hjys).
  unfold revise, dict_item. rewrite Hdi. cbn [bind].
  destruct di as [l|[z|s]]; simpl in Hixs; inversion Hixs; subst.
  - rewrite (revise_list_supported xs dj ys (List.length xs)); auto.
    + cbn [bind]. now rewrite (dict_set_id _ _ _ Hdi).
    + destruct (String.eqb j i) eqn:E.
      * apply String.eqb_eq in E. subst j. congruence.
      * unfold dict_item. now rewrite Hdj.
  - rewrite (revise_str_supported s dj ys); auto.
    unfold dict_item. now rewrite Hdj.
Qed.

End Supported.

Lemma inference_arc_consistent (c : CSP) (a : assignment) (fuel : nat) :
  arc_consistent c a ->
  forall q,
    (forall i j, In (i, j) q -> table_of c i j <> None) ->
    List.length q < fuel ->
    inference fuel c a q = Some (Ok (true, a)).
Proof.
  intros Hac. induction fuel as [|n IH]; intros q Hq Hlen; [lia|].
  rewrite inference_unfold. unfold inference_round.
  destruct q as [|[i j] q' _] using rev_ind; [reflexivity|].
  rewrite list_pop_snoc.
  destruct (table_of c i j) as [t|] eqn:Ht.
  2:{ exfalso. apply (Hq i j); [|exact Ht]. apply in_or_app. right. now left. }
  destruct (Hac i j t Ht) as (xs & ys & Hxs & Hys & Hsup).
  rewrite (revise_supported c a i j t Ht xs ys Hxs Hys Hsup). cbn [bind].
  apply IH.
  - intros i0 j0 H. apply Hq. apply in_or_app. now left.
  - rewrite length_app in Hlen. simpl in Hlen. lia.
Qed.

(** C9. On an assignment that is arc-consistent, [inference] started with
    the queue of all arcs returns true, after one round per arc, and the
    assignment is as it was. *)
Theorem inference_idempotent (c : CSP) (a : assignment) (fuel : nat) :
  wf_store c ->
  arc_consistent c a ->
  List.length (get_all_arcs c) < fuel ->
  inference fuel c a (get_all_arcs c) = Some (Ok (true, a)).
Proof.
  intros Hwf Hac Hlen. apply inference_arc_consistent; auto.
  intros i j. now apply get_all_arcs_table.
Qed.

Lemma arc_consistentb_sound (c : CSP) (a : assignment) :
  arc_consistentb c a = true -> arc_consistent c a.
Proof.
  unfold arc_consistentb. rewrite forallb_forall. intros H i j t Ht.
  assert (Hin : In (i, j) (get_all_arcs c))
    by (apply table_get_all_arcs; congruence).
  specialize (H _ Hin). simpl in H. rewrite Ht in H.
  destruct (values_of a i) as [xs|]; [|discriminate].
  destruct (values_of a j) as [ys|]; [|discriminate].
  exists xs, ys. repeat split. intros x Hx.
  rewrite forallb_forall in H. specialize (H x Hx).
  apply existsb_exists in H. destruct H as (y & Hy & Hxy).
  exists y. split; [exact Hy|]. now apply pair_in_In.
Qed.

Lemma inference_idempotent_witness :
  inference 7 (store_of three_of_two)
            (initial_assignment (store_of three_of_two))
            (get_all_arcs (store_of three_of_two)) =
    Some (Ok (true, initial_assignment (store_of three_of_two))).
Proof.
  apply (inference_idempotent (store_of three_of_two)
           (initial_assignment (store_of three_of_two)) 7).
  - unfold wf_store. simpl. repeat constructor; simpl; intuition discriminate.
  - apply arc_consistentb_sound. vm_compute. reflexivity.
  - simpl. lia.
Defined.

(* ================================================================= *)
(** ** The store keeps its keys unique *)

Lemma dict_set_keys_new {V : Type} (k : string) (v : V) (d : dict V) :
  dict_get k d = None -> dict_keys (dict_set k v d) = dict_keys d ++ [k].
Proof.
  induction d as [|[k' v'] r IH]; simpl; [reflexivity|].
  destruct (String.eqb k k'); [discriminate|]. intros H. simpl.
  f_equal. now apply IH.
Qed.

Lemma dict_set_NoDup {V : Type} (k : string) (v : V) (d : dict V) :
  NoDup (dict_keys d) -> NoDup (dict_keys (dict_set k v d)).
Proof.
  intros H. destruct (dict_get k d) as [v0|] eqn:E.
  - now rewrite (dict_set_keys _ _ _ _ E).
  - rewrite (dict_set_keys_new _ _ _ E).
    apply NoDup_app; [exact H | repeat constructor; auto |].
    intros x Hx [Hk|[]]. subst x.
    apply dict_get_keys in Hx. congruence.
Qed.

Lemma wf_store_init : wf_store CSP_init.
Proof. constructor. Qed.

Lemma wf_store_add_variable (c : CSP) (name : string) (domain : list pyval) :
  wf_store c -> wf_store (add_variable c name domain).
Proof. apply dict_set_NoDup. Qed.

Lemma wf_store_add_constraint_one_way (c c' : CSP) (i j : string)
    (f : pyval -> pyval -> bool) :
  add_constraint_one_way c i j f = Ok c' -> wf_store c -> wf_store c'.
Proof.
  unfold add_constraint_one_way.
  destruct (dict_item i (constraints c)) as [ci|]; cbn [bind]; [|discriminate].
  destruct (if negb (dict_mem j ci) then _ else _) as [ci1|]; cbn [bind];
    [|discriminate].
  destruct (dict_item j ci1); cbn [bind]; [|discriminate].
  intros H Hwf. inversion H. subst. now apply dict_set_NoDup.
Qed.

(* ================================================================= *)
(** ** [get_all_neighboring_arcs] *)

Lemma requeue_fold (i j : string) (arcs queue : list arc) :
  fold_left
    (fun q (k_ : arc) =>
       if negb (String.eqb (fst k_) j) then q ++ [(fst k_, i)] else q)
    arcs queue =
  queue ++ map (fun k => (k, i))
             (filter (fun k => negb (String.eqb k j)) (map fst arcs)).
Proof.
  revert queue. induction arcs as [|[k v] r IH]; intros queue; simpl.
  - now rewrite app_nil_r.
  - rewrite IH. destruct (negb (String.eqb k j)); simpl; [|reflexivity].
    now rewrite <- app_assoc.
Qed.

(** C6. For a registered variable [var], [get_all_neighboring_arcs]
    returns the pairs [(k, var)] for the keys [k] of the row of [var]:
    those for which the arc [(var, k)] has a table. When every table has its
    reverse these are the pairs for which [(k, var)] has a table. And when
    [revise] has removed a value of [var], the round of [inference] appends
    to the queue each of these pairs with [k] other than [j]. *)
Theorem get_all_neighboring_arcs_reverse (c : CSP) (var : string)
    (m : dict table) :
  dict_get var (constraints c) = Some m ->
  get_all_neighboring_arcs c var = Ok (map (fun k => (k, var)) (dict_keys m)) /\
  (forall k v, In (k, v) (map (fun k => (k, var)) (dict_keys m)) <->
               v = var /\ table_of c var k <> None) /\
  (symmetric_tables c ->
   forall k v, In (k, v) (map (fun k => (k, var)) (dict_keys m)) <->
               v = var /\ table_of c k var <> None) /\
  (forall a a1 j b queue,
     revise c a var j = Ok (b, a1) -> shrunk a a1 var ->
     inference_round c a (queue ++ [(var, j)]) =
       Ok (Continue a1
             (queue ++ map (fun k => (k, var))
                         (filter (fun k => negb (String.eqb k j))
                                 (dict_keys m))))).
Proof.
  intros Hm.
  assert (Hmem : forall k v, In (k, v) (map (fun k => (k, var)) (dict_keys m))
                             <-> v = var /\ table_of c var k <> None).
  { intros k v. unfold table_of. rewrite Hm, <- dict_get_keys, in_map_iff.
    split.
    - intros (k0 & E & Hk). inversion E. subst. auto.
    - intros [-> Hk]. eauto. }
  assert (Hget : get_all_neighboring_arcs c var
                 = Ok (map (fun k => (k, var)) (dict_keys m))).
  { unfold get_all_neighboring_arcs, dict_item. now rewrite Hm. }
  split; [exact Hget|]. split; [exact Hmem|]. split.
  - intros Hsym k v. rewrite Hmem. split; intros [-> H]; split; auto;
      now apply Hsym.
  - intros a a1 j b queue Hr Hs.
    unfold inference_round. rewrite list_pop_snoc, Hr. cbn [bind].
    rewrite (revise_shrunk_true _ _ _ _ _ _ Hr Hs).
    destruct (revise_shrunk_nonempty _ _ _ _ _ _ Hr Hs) as (d & Hd & Hnot).
    unfold dict_item. rewrite Hd. cbn [bind]. rewrite Hnot, Hget. cbn [bind].
    rewrite requeue_fold, map_map. simpl. rewrite map_id. reflexivity.
Qed.

Lemma get_all_neighboring_arcs_reverse_witness :
  inference_round (store_of three_of_two)
    [("A", DAtom (PStr "1")); ("B", DList [PStr "1"; PStr "2"]);
     ("C", DList [PStr "1"; PStr "2"])]
    ([("A", "B")] ++ [("C", "A")]) =
  Ok (Continue
        [("A", DAtom (PStr "1")); ("B", DList [PStr "1"; PStr "2"]);
         ("C", DList [PStr "2"])]
        ([("A", "B")] ++ [("B", "C")])).
Proof.
  apply (proj2 (proj2 (proj2
           (get_all_neighboring_arcs_reverse (store_of three_of_two) "C"
              [("A", [(PStr "1", PStr "2"); (PStr "2", PStr "1")]);
               ("B", [(PStr "1", PStr "2"); (PStr "2", PStr "1")])]
              eq_refl)))
           [("A", DAtom (PStr "1")); ("B", DList [PStr "1"; PStr "2"]);
            ("C", DList [PStr "1"; PStr "2"])]
           [("A", DAtom (PStr "1")); ("B", DList [PStr "1"; PStr "2"]);
            ("C", DList [PStr "2"])]
           "A" true [("A", "B")]).
  - reflexivity.
  - exists 2, 1. repeat split. lia.
Defined.

(** With a constraint added from A to B only, the arcs returned for A are
    [(B, A)], which has no table, and none is returned for B, although the
    table of [(A, B)] targets B. *)
Lemma neighboring_arcs_one_way :
  get_all_neighboring_arcs (store_of one_way) "A" = Ok [("B", "A")] /\
  table_of (store_of one_way) "B" "A" = None /\
  get_all_neighboring_arcs (store_of one_way) "B" = Ok [] /\
  table_of (store_of one_way) "A" "B" <> None.
Proof. repeat split. discriminate. Qed.

(* ================================================================= *)
(** ** [select_unassigned_variable] *)

Lemma key_lt_trans (x y z : sortkey) :
  key_lt x y = true -> key_lt y z = true -> key_lt x z = true.
Proof.
  destruct x, y, z; simpl; try discriminate; auto.
  rewrite !Nat.ltb_lt. lia.
Qed.

Lemma key_lt_le_trans (x y z : sortkey) :
  key_lt x y = true -> key_lt z y = false -> key_lt x z = true.
Proof.
  destruct x, y, z; simpl; try discriminate; auto.
  rewrite !Nat.ltb_lt, Nat.ltb_ge. lia.
Qed.

Section MinimumRemainingValues.

Variable a : assignment.
Hypothesis Hnodup : NoDup (dict_keys a).
Hypothesis Hsized : forall k d, In (k, d) a -> exists n, py_len d = Ok n.

Lemma mrv_key_In (k : string) (d : pydom) (n : nat) :
  In (k, d) a -> py_len d = Ok n -> mrv_key a k = Ok (mrv_size n).
Proof.
  intros Hin Hn. unfold mrv_key, dict_item.
  rewrite (In_dict_get _ _ _ Hnodup Hin). cbn [bind]. now rewrite Hn.
Qed.

(** [min] returns the first of the items whose key is least: the items
    before it have a larger key, the items after it have no smaller one. *)
Lemma py_min_first_least (rest : assignment) :
  forall pre best dbest nbest mid,
    a = pre ++ (best, dbest) :: mid ++ rest ->
    py_len dbest = Ok nbest ->
    (forall k d n, In (k, d) pre -> py_len d = Ok n ->
                   key_lt (mrv_size nbest) (mrv_size n) = true) ->
    (forall k d n, In (k, d) mid -> py_len d = Ok n ->
                   key_lt (mrv_size n) (mrv_size nbest) = false) ->
    exists pre' v d n post,
      py_min a best (mrv_size nbest) (dict_keys rest) = Ok v /\
      a = pre' ++ (v, d) :: post /\ py_len d = Ok n /\
      (forall k' d' n', In (k', d') pre' -> py_len d' = Ok n' ->
                        key_lt (mrv_size n) (mrv_size n') = true) /\
      (forall k' d' n', In (k', d') post -> py_len d' = Ok n' ->
                        key_lt (mrv_size n') (mrv_size n) = false).
Proof.
  induction rest as [|[v d] rest IH]; intros pre best dbest nbest mid Ha Hb Hpre Hmid.
  - exists pre, best, dbest, nbest, mid. rewrite app_nil_r in Ha.
    repeat split; auto.
  - assert (Hin : In (v, d) a).
    { rewrite Ha. apply in_or_app. right. right. apply in_or_app. right.
      now left. }
    destruct (Hsized _ _ Hin) as (n & Hn).
    cbn [dict_keys map fst py_min]. rewrite (mrv_key_In _ _ _ Hin Hn).
    cbn [bind]. destruct (key_lt (mrv_size n) (mrv_size nbest)) eqn:Hlt.
    + apply (IH (pre ++ (best, dbest) :: mid) v d n []); auto.
      * rewrite Ha. now rewrite <- app_assoc.
      * intros k0 d0 n0 H0 Hn0. apply in_app_or in H0.
        destruct H0 as [H0|[H0|H0]].
        -- apply key_lt_trans with (1 := Hlt). eauto.
        -- inversion H0. subst. rewrite Hb in Hn0. inversion Hn0. now subst.
        -- apply key_lt_le_trans with (1 := Hlt). eauto.
      * intros k0 d0 n0 [].
    + apply (IH pre best dbest nbest (mid ++ [(v, d)])); auto.
      * rewrite Ha. now rewrite <- app_assoc.
      * intros k0 d0 n0 H0 Hn0. apply in_app_or in H0.
        destruct H0 as [H0|[H0|[]]]; [eauto|].
        inversion H0. subst. rewrite Hn in Hn0. inversion Hn0. now subst.
Qed.

End MinimumRemainingValues.

(** C8. On an assignment with a slot of two values or more (and a size
    for every slot), [select_unassigned_variable] returns a variable whose
    slot has two values or more; every variable before it in the order of
    the dict is decided or has strictly more values, and every variable after
    it is decided or has at least as many. *)
Theorem select_unassigned_variable_mrv (a : assignment) :
  NoDup (dict_keys a) ->
  (forall k d, In (k, d) a -> exists n, py_len d = Ok n) ->
  (exists k d n, In (k, d) a /\ py_len d = Ok n /\ 2 <= n) ->
  exists pre v d post n,
    select_unassigned_variable a = Ok v /\
    a = pre ++ (v, d) :: post /\ py_len d = Ok n /\ 2 <= n /\
    (forall k' d' n', In (k', d') pre -> py_len d' = Ok n' ->
                      n' < 2 \/ n < n') /\
    (forall k' d' n', In (k', d') post -> py_len d' = Ok n' ->
                      n' < 2 \/ n <= n').
Proof.
  intros Hnodup Hsized (k0 & d0 & n0 & Hin0 & Hn0 & Hbig).
  destruct a as [|[v0 dv0] rest] eqn:Ea; [destruct Hin0|]. rewrite <- Ea in *.
  destruct (Hsized v0 dv0) as (nv0 & Hnv0); [rewrite Ea; now left|].
  destruct (py_min_first_least a Hnodup Hsized rest [] v0 dv0 nv0 [] Ea Hnv0
              (fun _ _ _ (H : False) _ => False_ind _ H)
              (fun _ _ _ (H : False) _ => False_ind _ H))
    as (pre & v & d & n & post & Hmin & Hsplit & Hn & Hpre & Hpost).
  assert (Hsel : select_unassigned_variable a = Ok v).
  { unfold select_unassigned_variable. rewrite Ea at 1.
    cbn [dict_keys map fst].
    rewrite (mrv_key_In a Hnodup v0 dv0 nv0); [|rewrite Ea; now left|auto].
    exact Hmin. }
  assert (Hn2 : 2 <= n).
  { destruct (le_lt_dec 2 n) as [|Hsmall]; [assumption|exfalso].
    assert (Ek : mrv_size n = KInf).
    { unfold mrv_size. apply Nat.ltb_lt in Hsmall. now rewrite Hsmall. }
    assert (Ek0 : mrv_size n0 = KInt n0).
    { unfold mrv_size. apply Nat.ltb_ge in Hbig. now rewrite Hbig. }
    rewrite Hsplit in Hin0. apply in_app_or in Hin0.
    destruct Hin0 as [H|[H|H]].
    - specialize (Hpre _ _ _ H Hn0). rewrite Ek in Hpre. discriminate.
    - inversion H. subst. rewrite Hn in Hn0. inversion Hn0. lia.
    - specialize (Hpost _ _ _ H Hn0). rewrite Ek, Ek0 in Hpost. discriminate. }
  assert (Ek : mrv_size n = KInt n).
  { unfold mrv_size. apply Nat.ltb_ge in Hn2. now rewrite Hn2. }
  exists pre, v, d, post, n. repeat split; auto.
  - intros k' d' n' H Hn'. specialize (Hpre _ _ _ H Hn').
    rewrite Ek in Hpre. unfold mrv_size in Hpre.
    destruct (Nat.ltb n' 2) eqn:E.
    + left. now apply Nat.ltb_lt.
    + right. simpl in Hpre. now apply Nat.ltb_lt.
  - intros k' d' n' H Hn'. specialize (Hpost _ _ _ H Hn').
    rewrite Ek in Hpost. unfold mrv_size in Hpost.
    destruct (Nat.ltb n' 2) eqn:E.
    + left. now apply Nat.ltb_lt.
    + right. simpl in Hpost. now apply Nat.ltb_ge.
Qed.

Lemma select_unassigned_variable_mrv_witness :
  exists pre v d post n,
    select_unassigned_variable
      [("A", DList [PInt 1; PInt 2; PInt 3]); ("B", DList [PInt 1]);
       ("C", DList [PInt 1; PInt 2]); ("D", DList [PInt 3; PInt 4])] = Ok v /\
    [("A", DList [PInt 1; PInt 2; PInt 3]); ("B", DList [PInt 1]);
     ("C", DList [PInt 1; PInt 2]); ("D", DList [PInt 3; PInt 4])]
      = pre ++ (v, d) :: post /\ py_len d = Ok n /\ 2 <= n /\
    (forall k' d' n', In (k', d') pre -> py_len d' = Ok n' ->
                      n' < 2 \/ n < n') /\
    (forall k' d' n', In (k', d') post -> py_len d' = Ok n' ->
                      n' < 2 \/ n <= n').
Proof.
  apply (select_unassigned_variable_mrv
           [("A", DList [PInt 1; PInt 2; PInt 3]); ("B", DList [PInt 1]);
            ("C", DList [PInt 1; PInt 2]); ("D", DList [PInt 3; PInt 4])]).
  - simpl. repeat constructor; simpl; intuition discriminate.
  - intros k d H. simpl in H.
    destruct H as [H|[H|[H|[H|[]]]]]; inversion H; subst; eexists;
      reflexivity.
  - exists "A", (DList [PInt 1; PInt 2; PInt 3]), 3.
    split; [now left|]. split; [reflexivity | lia].
Defined.

(** The variable chosen there is C, the first of the two variables with
    two values. *)
Example select_unassigned_variable_first_smallest :
  select_unassigned_variable
    [("A", DList [PInt 1; PInt 2; PInt 3]); ("B", DList [PInt 1]);
     ("C", DList [PInt 1; PInt 2]); ("D", DList [PInt 3; PInt 4])] = Ok "C".
Proof. reflexivity. Qed.

(* ================================================================= *)
(** ** [add_constraint_one_way] *)

Lemma dict_set_set {V : Type} (k : string) (v v' : V) (d : dict V) :
  dict_set k v (dict_set k v' d) = dict_set k v d.
Proof.
  induction d as [|[k0 v0] r IH]; simpl.
  - now rewrite String.eqb_refl.
  - destruct (String.eqb k k0) eqn:E; simpl; rewrite E; [reflexivity|].
    now rewrite IH.
Qed.

Lemma legal_pairs_idem (f : pyval -> pyval -> bool) (t : table) :
  legal_pairs f (legal_pairs f t) = legal_pairs f t.
Proof.
  unfold legal_pairs. induction t as [|p r IH]; simpl; [reflexivity|].
  destruct (f (fst p) (snd p)) eqn:E; simpl; [rewrite E|]; now rewrite IH.
Qed.

(** What a call that returns has done. *)
Lemma add_constraint_one_way_Ok (c c' : CSP) (i j : string)
    (f : pyval -> pyval -> bool) :
  add_constraint_one_way c i j f = Ok c' <->
  exists ci b,
    dict_get i (constraints c) = Some ci /\ base_pairs c i j = Some b /\
    c' = set_constraints c
           (dict_set i (dict_set j (legal_pairs f b) ci) (constraints c)).
Proof.
  unfold add_constraint_one_way, base_pairs, table_of, dict_item, dict_mem.
  destruct (dict_get i (constraints c)) as [ci|] eqn:Hi; cbn [bind].
  2:{ split; [discriminate|]. intros (ci & b & H & _). discriminate. }
  destruct (dict_get j ci) as [t|] eqn:Hj; cbn [negb bind].
  - change (list (pyval * pyval)) with table. split; rewrite Hj; cbn [bind].
    + intros H. inversion H. exists ci, t. auto.
    + intros (ci0 & b & H1 & H2 & ->). inversion H1. inversion H2.
      reflexivity.
  - destruct (dict_get i (domains c)) as [di|]; cbn [bind].
    2:{ split; [discriminate|]. intros (ci0 & b & _ & H & _). discriminate. }
    destruct (dict_get j (domains c)) as [dj|]; cbn [bind].
    2:{ split; [discriminate|]. intros (ci0 & b & _ & H & _). discriminate. }
    rewrite dict_get_set_same. cbn [bind]. rewrite dict_set_set. split.
    + intros H. inversion H. exists ci, (get_all_possible_pairs di dj). auto.
    + intros (ci0 & b & H1 & H2 & ->). inversion H1. inversion H2.
      reflexivity.
Qed.

Lemma add_constraint_one_way_Raise (c : CSP) (i j : string)
    (f : pyval -> pyval -> bool) (e : exn) :
  add_constraint_one_way c i j f = Raise e ->
  e = KeyError /\
  (dict_get i (constraints c) = None \/ base_pairs c i j = None).
Proof.
  unfold add_constraint_one_way, base_pairs, table_of, dict_item, dict_mem.
  destruct (dict_get i (constraints c)) as [ci|] eqn:Hi; cbn [bind].
  2:{ intros H. inversion H. auto. }
  destruct (dict_get j ci) as [t|] eqn:Hj; cbn [negb bind].
  - change (list (pyval * pyval)) with table. rewrite Hj. discriminate.
  - destruct (dict_get i (domains c)) as [di|]; cbn [bind].
    2:{ intros H. inversion H. auto. }
    destruct (dict_get j (domains c)) as [dj|]; cbn [bind].
    2:{ intros H. inversion H. auto. }
    rewrite dict_get_set_same. discriminate.
Qed.

Lemma table_of_set_same (c : CSP) (i j : string) (t : table) (ci : dict table) :
  table_of (set_constraints c (dict_set i (dict_set j t ci) (constraints c)))
           i j = Some t.
Proof.
  unfold table_of. simpl. rewrite dict_get_set_same. apply dict_get_set_same.
Qed.

Lemma table_of_set_other (c : CSP) (i j i' j' : string) (t : table)
    (ci : dict table) :
  dict_get i (constraints c) = Some ci ->
  i' <> i \/ j' <> j ->
  table_of (set_constraints c (dict_set i (dict_set j t ci) (constraints c)))
           i' j' = table_of c i' j'.
Proof.
  intros Hi Hne. unfold table_of. simpl.
  destruct (String.eqb i' i) eqn:E.
  - apply String.eqb_eq in E. subst i'. rewrite dict_get_set_same, Hi.
    destruct Hne as [N|N]; [congruence|]. now apply dict_get_set_other.
  - apply String.eqb_neq in E. now rewrite dict_get_set_other.
Qed.

(** What a call that returns has changed, and what it has not. *)
Lemma add_constraint_one_way_effect (c c' : CSP) (i j : string)
    (f : pyval -> pyval -> bool) :
  add_constraint_one_way c i j f = Ok c' ->
  variables c' = variables c /\ domains c' = domains c /\
  backtrack_counter c' = backtrack_counter c /\
  backtrack_failure_counter c' = backtrack_failure_counter c /\
  (exists b, base_pairs c i j = Some b /\
             table_of c' i j = Some (legal_pairs f b)) /\
  (forall t x y, table_of c' i j = Some t -> In (x, y) t -> f x y = true) /\
  (forall i' j', i' <> i \/ j' <> j -> table_of c' i' j' = table_of c i' j').
Proof.
  intros H. apply add_constraint_one_way_Ok in H.
  destruct H as (ci & b & Hi & Hb & ->).
  repeat split; try reflexivity.
  - exists b. split; [exact Hb | apply table_of_set_same].
  - intros t x y Ht Hin. rewrite table_of_set_same in Ht. inversion Ht. subst.
    unfold legal_pairs in Hin. apply filter_In in Hin. apply Hin.
  - intros i' j' Hne. now apply table_of_set_other.
Qed.

(** X1. A call of [add_constraint_one_way] that returns has put, as the
    table of [(i, j)], the pairs of the former table (or, when there was
    none, of all pairs of the two domains, in the order of [product]) that
    the predicate accepts; every other table, the variables, the domains and
    the counters are as before. *)
Theorem add_constraint_one_way_table (c c' : CSP) (i j : string)
    (f : pyval -> pyval -> bool) :
  add_constraint_one_way c i j f = Ok c' ->
  variables c' = variables c /\ domains c' = domains c /\
  backtrack_counter c' = backtrack_counter c /\
  backtrack_failure_counter c' = backtrack_failure_counter c /\
  (exists b, base_pairs c i j = Some b /\
             table_of c' i j = Some (legal_pairs f b)) /\
  (forall t x y, table_of c' i j = Some t -> In (x, y) t -> f x y = true) /\
  (forall i' j', i' <> i \/ j' <> j -> table_of c' i' j' = table_of c i' j').
Proof. apply add_constraint_one_way_effect. Qed.

Lemma add_constraint_one_way_table_witness :
  table_of (store_of one_way) "A" "B" =
    Some [(PInt 1, PInt 2); (PInt 2, PInt 1)] /\
  table_of (store_of one_way) "B" "A" = None.
Proof.
  destruct (add_constraint_one_way_table
              (add_variable (add_variable CSP_init "A" [PInt 1; PInt 2])
                            "B" [PInt 1; PInt 2])
              (store_of one_way) "A" "B" not_equal eq_refl)
    as (_ & _ & _ & _ & (b & Hb & Ht) & _ & Hframe).
  split.
  - rewrite Ht. inversion Hb. reflexivity.
  - rewrite (Hframe "B" "A"); [reflexivity | left; discriminate].
Defined.

(** X2. [add_constraint_one_way] raises nothing but [KeyError], and it
    raises it exactly when [i] has no row of tables, or when the arc has no
    table yet and [i] or [j] has no domain. *)
Theorem add_constraint_one_way_raises (c : CSP) (i j : string)
    (f : pyval -> pyval -> bool) :
  (forall e, add_constraint_one_way c i j f = Raise e -> e = KeyError) /\
  (add_constraint_one_way c i j f = Raise KeyError <->
   dict_get i (constraints c) = None \/
   (table_of c i j = None /\
    (dict_get i (domains c) = None \/ dict_get j (domains c) = None))).
Proof.
  assert (Hbase : base_pairs c i j = None <->
                  table_of c i j = None /\
                  (dict_get i (domains c) = None \/
                   dict_get j (domains c) = None)).
  { unfold base_pairs. destruct (table_of c i j).
    - split; [discriminate | intros [H _]; discriminate].
    - destruct (dict_get i (domains c)), (dict_get j (domains c));
        split; auto; try discriminate; intros [_ [H|H]]; discriminate. }
  split.
  - intros e H. now apply add_constraint_one_way_Raise in H.
  - split.
    + intros H. apply add_constraint_one_way_Raise in H.
      destruct H as [_ [H|H]]; [now left | right; now apply Hbase].
    + intros H.
      destruct (add_constraint_one_way c i j f) as [c'|e] eqn:E.
      * exfalso. apply add_constraint_one_way_Ok in E.
        destruct E as (ci & b & Hi & Hb & _).
        destruct H as [H|H]; [congruence|].
        apply Hbase in H. congruence.
      * apply add_constraint_one_way_Raise in E. destruct E as [-> _].
        reflexivity.
Qed.

(** X3. Adding the same constraint a second time changes nothing: the call
    returns the store it was given. *)
Theorem add_constraint_one_way_idempotent (c c' : CSP) (i j : string)
    (f : pyval -> pyval -> bool) :
  add_constraint_one_way c i j f = Ok c' ->
  add_constraint_one_way c' i j f = Ok c'.
Proof.
  intros H. apply add_constraint_one_way_Ok in H.
  destruct H as (ci & b & Hi & Hb & ->).
  apply add_constraint_one_way_Ok.
  exists (dict_set j (legal_pairs f b) ci), (legal_pairs f b).
  split; [|split].
  - simpl. apply dict_get_set_same.
  - unfold base_pairs. now rewrite table_of_set_same.
  - rewrite legal_pairs_idem, dict_set_set. simpl. rewrite dict_set_set.
    reflexivity.
Qed.

Lemma add_constraint_one_way_idempotent_witness :
  add_constraint_one_way (store_of one_way) "A" "B" not_equal
    = Ok (store_of one_way).
Proof.
  apply (add_constraint_one_way_idempotent
           (add_variable (add_variable CSP_init "A" [PInt 1; PInt 2])
                         "B" [PInt 1; PInt 2])
           (store_of one_way) "A" "B" not_equal).
  reflexivity.
Defined.

(* ================================================================= *)
(** ** [add_all_different_constraint] *)

Lemma base_pairs_table (c : CSP) (i j : string) (t : table) :
  table_of c i j = Some t -> base_pairs c i j = Some t.
Proof. unfold base_pairs. now intros ->. Qed.

Lemma base_pairs_frame (c c' : CSP) (i j i' j' : string) :
  domains c' = domains c ->
  table_of c' i' j' = table_of c i' j' ->
  base_pairs c' i' j' = base_pairs c i' j'.
Proof. unfold base_pairs. now intros -> ->. Qed.

Lemma arc_eq_dec (p q : string * string) : {p = q} + {p <> q}.
Proof. decide equality; apply string_dec. Qed.

Section AllDifferent.

(** The body of the loop of [add_all_different_constraint]. *)
Let step (acc : res CSP) (ij : string * string) : res CSP :=
  c' <- acc ;;
  if String.eqb (fst ij) (snd ij) then Ok c'
  else add_constraint_one_way c' (fst ij) (snd ij) not_equal.

Lemma all_different_fold_Raise (pairs : list (string * string)) (e : exn) :
  fold_left step pairs (Raise e) = Raise e.
Proof. induction pairs as [|p r IH]; simpl; auto. Qed.

Lemma all_different_fold (pairs : list (string * string)) :
  forall c c',
    fold_left step pairs (Ok c) = Ok c' ->
    variables c' = variables c /\ domains c' = domains c /\
    (forall i j, In (i, j) pairs -> i <> j ->
       exists b, base_pairs c i j = Some b /\
                 table_of c' i j = Some (legal_pairs not_equal b)) /\
    (forall i j, ~ In (i, j) pairs \/ i = j ->
       table_of c' i j = table_of c i j).
Proof.
  induction pairs as [|[a b] rest IH]; intros c c' H.
  - simpl in H. inversion H. subst. repeat split; auto.
    intros i j [].
  - cbn [fold_left] in H. unfold step at 2 in H. cbn [bind fst snd] in H.
    destruct (String.eqb a b) eqn:Eab.
    + apply String.eqb_eq in Eab. subst b.
      destruct (IH _ _ H) as (Hv & Hd & Hin & Hout).
      repeat split; auto.
      * intros i j [E|Hi] Hne; [inversion E; congruence | auto].
      * intros i j Hn. apply Hout. destruct Hn as [Hn|Hn]; [|now right].
        left. intros Hi. apply Hn. now right.
    + apply String.eqb_neq in Eab.
      destruct (add_constraint_one_way c a b not_equal) as [c1|e] eqn:E1.
      2:{ rewrite all_different_fold_Raise in H. discriminate. }
      destruct (IH _ _ H) as (Hv & Hd & Hin & Hout).
      destruct (add_constraint_one_way_effect _ _ _ _ _ E1)
        as (Hv1 & Hd1 & _ & _ & (b0 & Hb0 & Ht1) & _ & Hframe).
      repeat split; try congruence.
      * intros i j Hi Hne.
        destruct (string_dec i a) as [->|Nia].
        -- destruct (string_dec j b) as [->|Njb].
           ++ exists b0. split; [exact Hb0|].
              destruct (in_dec arc_eq_dec (a, b) rest) as [Hr|Hr].
              ** destruct (Hin a b Hr Hne) as (b1 & Hb1 & Ht).
                 rewrite (base_pairs_table _ _ _ _ Ht1) in Hb1.
                 inversion Hb1. subst b1. now rewrite legal_pairs_idem in Ht.
              ** rewrite Hout; [exact Ht1 | now left].
           ++ destruct Hi as [E|Hi]; [inversion E; congruence|].
              destruct (Hin a j Hi Hne) as (b1 & Hb1 & Ht).
              exists b1. split; [|exact Ht].
              rewrite <- Hb1. symmetry. apply base_pairs_frame; auto.
        -- destruct Hi as [E|Hi]; [inversion E; congruence|].
           destruct (Hin i j Hi Hne) as (b1 & Hb1 & Ht).
           exists b1. split; [|exact Ht].
           rewrite <- Hb1. symmetry. apply base_pairs_frame; auto.
      * intros i j Hn.
        assert (Hne : i <> a \/ j <> b).
        { destruct Hn as [Hn| ->].
          - destruct (string_dec i a) as [->|]; [|now left].
            destruct (string_dec j b) as [->|]; [|now right].
            exfalso. apply Hn. now left.
          - destruct (string_dec j a) as [->|]; [now right | now left]. }
        rewrite Hout; [now apply Hframe|].
        destruct Hn as [Hn|Hn]; [|now right].
        left. intros Hi. apply Hn. now right.
Qed.

Lemma add_all_different_effect (c c' : CSP)
    (var_list : list string) :
  add_all_different_constraint c var_list = Ok c' ->
  variables c' = variables c /\ domains c' = domains c /\
  (forall i j, In i var_list -> In j var_list -> i <> j ->
     exists b, base_pairs c i j = Some b /\
               table_of c' i j = Some (legal_pairs not_equal b)) /\
  (forall i j t x y, In i var_list -> In j var_list -> i <> j ->
     table_of c' i j = Some t -> In (x, y) t -> x <> y) /\
  (forall i j, ~ (In i var_list /\ In j var_list /\ i <> j) ->
     table_of c' i j = table_of c i j).
Proof.
  unfold add_all_different_constraint, get_all_possible_pairs. intros H.
  destruct (all_different_fold _ _ _ H) as (Hv & Hd & Hin & Hout).
  assert (Htab : forall i j, In i var_list -> In j var_list -> i <> j ->
     exists b, base_pairs c i j = Some b /\
               table_of c' i j = Some (legal_pairs not_equal b)).
  { intros i j Hi Hj Hne. apply Hin; [|exact Hne]. now apply in_prod. }
  repeat split; auto.
  - intros i j t x y Hi Hj Hne Ht Hxy E. subst y.
    destruct (Htab i j Hi Hj Hne) as (b & _ & Ht').
    rewrite Ht' in Ht. inversion Ht. subst t.
    unfold legal_pairs in Hxy. apply filter_In in Hxy.
    destruct Hxy as [_ Hxy]. simpl in Hxy. unfold not_equal in Hxy.
    now rewrite pyval_eqb_refl in Hxy.
  - intros i j Hn. apply Hout.
    destruct (string_dec i j) as [->|Hne]; [now right|]. left.
    intros Hi. apply in_prod_iff in Hi. apply Hn. tauto.
Qed.

End AllDifferent.

(** X4. A call of [add_all_different_constraint] that returns has given
    every ordered pair of distinct names of the list a table: the pairs of
    its former table, or of all pairs of the two domains, whose components
    differ. No other table, no domain and no variable has changed. *)
Theorem add_all_different_constraint_tables (c c' : CSP)
    (var_list : list string) :
  add_all_different_constraint c var_list = Ok c' ->
  variables c' = variables c /\ domains c' = domains c /\
  (forall i j, In i var_list -> In j var_list -> i <> j ->
     exists b, base_pairs c i j = Some b /\
               table_of c' i j = Some (legal_pairs not_equal b)) /\
  (forall i j t x y, In i var_list -> In j var_list -> i <> j ->
     table_of c' i j = Some t -> In (x, y) t -> x <> y) /\
  (forall i j, ~ (In i var_list /\ In j var_list /\ i <> j) ->
     table_of c' i j = table_of c i j).
Proof. apply add_all_different_effect. Qed.

Lemma add_all_different_constraint_tables_witness :
  table_of (store_of three_of_two) "C" "A" =
    Some [(PStr "1", PStr "2"); (PStr "2", PStr "1")].
Proof.
  destruct (add_all_different_constraint_tables
              (add_variable (add_variable (add_variable CSP_init
                 "A" [PStr "1"; PStr "2"]) "B" [PStr "1"; PStr "2"])
                 "C" [PStr "1"; PStr "2"])
              (store_of three_of_two) ["A"; "B"; "C"] eq_refl)
    as (_ & _ & Htab & _).
  destruct (Htab "C" "A") as (b & Hb & Ht);
    [simpl; auto | simpl; auto | discriminate |].
  rewrite Ht. inversion Hb. reflexivity.
Defined.

(* ================================================================= *)
(** ** What the store keeps *)

Lemma dict_set_keys_eq {V W : Type} (k : string) (v : V) (w : W)
    (d : dict V) (d' : dict W) :
  dict_keys d = dict_keys d' ->
  dict_keys (dict_set k v d) = dict_keys (dict_set k w d').
Proof.
  revert d'. induction d as [|[k0 v0] r IH]; intros [|[k1 w1] r']; simpl;
    try discriminate; auto.
  intros H. inversion H. subst k1.
  destruct (String.eqb k k0); simpl; f_equal; auto.
Qed.

Lemma dict_set_keys_In {V : Type} (k k' : string) (v : V) (d : dict V) :
  In k' (dict_keys (dict_set k v d)) <-> k' = k \/ In k' (dict_keys d).
Proof.
  rewrite !dict_get_keys. destruct (string_dec k' k) as [->|N].
  - rewrite dict_get_set_same. split; [auto | discriminate].
  - rewrite dict_get_set_other by exact N. split; [auto|].
    intros [H|H]; [contradiction | exact H].
Qed.

Lemma store_coherent_add_variable (c : CSP) (name : string)
    (domain : list pyval) :
  store_coherent c -> store_coherent (add_variable c name domain).
Proof.
  intros (Hk & Hnd & Hv). split; [|split]; simpl.
  - now apply dict_set_keys_eq.
  - now apply dict_set_NoDup.
  - intros v. rewrite in_app_iff, dict_set_keys_In, Hv. simpl.
    intuition (subst; auto).
Qed.

Lemma store_coherent_add_constraint_one_way (c c' : CSP) (i j : string)
    (f : pyval -> pyval -> bool) :
  add_constraint_one_way c i j f = Ok c' ->
  store_coherent c -> store_coherent c'.
Proof.
  intros H (Hk & Hnd & Hv). apply add_constraint_one_way_Ok in H.
  destruct H as (ci & b & Hi & _ & ->). unfold store_coherent. simpl.
  rewrite (dict_set_keys _ _ _ _ Hi). auto.
Qed.

Lemma store_coherent_add_all_different (var_list : list string) :
  forall c c',
    add_all_different_constraint c var_list = Ok c' ->
    store_coherent c -> store_coherent c'.
Proof.
  unfold add_all_different_constraint.
  induction (get_all_possible_pairs var_list var_list) as [|[a b] rest IH];
    intros c c' H Hc.
  - simpl in H. inversion H. now subst.
  - cbn [fold_left bind fst snd] in H.
    destruct (String.eqb a b); [now apply (IH c)|].
    destruct (add_constraint_one_way c a b not_equal) as [c1|e] eqn:E1.
    + apply (IH c1); [exact H|].
      now apply store_coherent_add_constraint_one_way with (1 := E1).
    + exfalso. clear IH. induction rest as [|p r IHr]; simpl in H;
        [discriminate | auto].
Qed.

Lemma store_coherent_init : store_coherent CSP_init.
Proof.
  unfold store_coherent. simpl. repeat split; auto; constructor.
Qed.

(** X5. The empty store is coherent (both dicts have the same keys, each
    once, and these are the registered names), and [add_variable],
    [add_constraint_one_way] and [add_all_different_constraint] keep it so. *)
Theorem store_coherent_kept :
  store_coherent CSP_init /\
  (forall c name domain,
     store_coherent c -> store_coherent (add_variable c name domain)) /\
  (forall c c' i j f,
     add_constraint_one_way c i j f = Ok c' ->
     store_coherent c -> store_coherent c') /\
  (forall c c' var_list,
     add_all_different_constraint c var_list = Ok c' ->
     store_coherent c -> store_coherent c').
Proof.
  split; [|split; [|split]].
  - apply store_coherent_init.
  - apply store_coherent_add_variable.
  - apply store_coherent_add_constraint_one_way.
  - intros c c' var_list. apply store_coherent_add_all_different.
Qed.

Lemma coherent_registered (c : CSP) (v : string) :
  store_coherent c -> In v (variables c) ->
  dict_get v (constraints c) <> None /\ dict_get v (domains c) <> None.
Proof.
  intros (Hk & _ & Hv) Hin. apply Hv in Hin. split.
  - now apply dict_get_keys.
  - apply dict_get_keys. now rewrite Hk.
Qed.

Lemma add_constraint_one_way_registered (c : CSP) (i j : string)
    (f : pyval -> pyval -> bool) :
  store_coherent c -> In i (variables c) -> In j (variables c) ->
  exists c', add_constraint_one_way c i j f = Ok c'.
Proof.
  intros Hc Hi Hj.
  destruct (coherent_registered _ _ Hc Hi) as [Hci Hdi].
  destruct (coherent_registered _ _ Hc Hj) as [_ Hdj].
  destruct (add_constraint_one_way c i j f) as [c'|e] eqn:E; [eauto|].
  exfalso. apply add_constraint_one_way_Raise in E.
  destruct E as [_ [E|E]]; [congruence|].
  unfold base_pairs in E. destruct (table_of c i j); [discriminate|].
  destruct (dict_get i (domains c)); [|congruence].
  destruct (dict_get j (domains c)); [discriminate | congruence].
Qed.

Lemma add_all_different_registered (var_list : list string) :
  forall c,
    store_coherent c ->
    (forall v, In v var_list -> In v (variables c)) ->
    exists c', add_all_different_constraint c var_list = Ok c'.
Proof.
  intros c Hc Hreg. unfold add_all_different_constraint.
  assert (Hp : forall i j,
             In (i, j) (get_all_possible_pairs var_list var_list) ->
             In i (variables c) /\ In j (variables c)).
  { intros i j H. apply in_prod_iff in H. destruct H. auto. }
  clear Hreg. revert c Hc Hp.
  induction (get_all_possible_pairs var_list var_list) as [|[a b] rest IH];
    intros c Hc Hp.
  - exists c. reflexivity.
  - cbn [fold_left bind fst snd].
    destruct (String.eqb a b).
    + apply IH; [exact Hc|]. intros i j H. apply Hp. now right.
    + destruct (Hp a b (or_introl eq_refl)) as [Ha Hb].
      destruct (add_constraint_one_way_registered c a b not_equal Hc Ha Hb)
        as (c1 & E1).
      rewrite E1.
      destruct (add_constraint_one_way_effect _ _ _ _ _ E1) as (Hv1 & _).
      apply IH.
      * now apply store_coherent_add_constraint_one_way with (1 := E1).
      * intros i j H. rewrite Hv1. apply Hp. now right.
Qed.

(** X6. On a coherent store, constraints between registered variables can
    always be added: [add_constraint_one_way] returns for two registered
    names, and [add_all_different_constraint] returns for a list of
    registered names. *)
Theorem constraints_of_registered_variables (c : CSP) :
  store_coherent c ->
  (forall i j f, In i (variables c) -> In j (variables c) ->
     exists c', add_constraint_one_way c i j f = Ok c') /\
  (forall var_list, (forall v, In v var_list -> In v (variables c)) ->
     exists c', add_all_different_constraint c var_list = Ok c').
Proof.
  intros Hc. split.
  - intros i j f. now apply add_constraint_one_way_registered.
  - intros var_list. now apply add_all_different_registered.
Qed.

Lemma constraints_of_registered_variables_witness :
  exists c',
    add_all_different_constraint
      (add_variable (add_variable CSP_init "A" [PInt 1]) "B" [PInt 1])
      ["A"; "B"] = Ok c'.
Proof.
  apply (proj2 (constraints_of_registered_variables
                  (add_variable (add_variable CSP_init "A" [PInt 1])
                                "B" [PInt 1])
                  (store_coherent_add_variable _ _ _
                     (store_coherent_add_variable _ _ _
                        store_coherent_init)))).
  intros v H. simpl in *. tauto.
Defined.

(** X7. On a store whose dict of rows has unique keys, [get_all_arcs] lists
    exactly the arcs that have a table. *)
Theorem get_all_arcs_exact (c : CSP) (i j : string) :
  wf_store c ->
  (In (i, j) (get_all_arcs c) <-> table_of c i j <> None).
Proof.
  intros Hwf. split.
  - now apply get_all_arcs_table.
  - apply table_get_all_arcs.
Qed.

Lemma get_all_arcs_exact_witness :
  In ("A", "B") (get_all_arcs (store_of one_way)) <->
  table_of (store_of one_way) "A" "B" <> None.
Proof.
  apply (get_all_arcs_exact (store_of one_way) "A" "B").
  unfold wf_store. simpl. repeat constructor; simpl; intuition discriminate.
Defined.

(** X8. Registering a name that is not yet a key puts it last: last in
    [variables], last key of [domains], bound to the new domain, and last key
    of [constraints], bound to an empty row. What other names are bound to
    stays. *)
Theorem add_variable_fresh (c : CSP) (name : string) (domain : list pyval) :
  dict_get name (domains c) = None ->
  dict_get name (constraints c) = None ->
  let c' := add_variable c name domain in
  variables c' = variables c ++ [name] /\
  domains c' = domains c ++ [(name, domain)] /\
  constraints c' = constraints c ++ [(name, [])] /\
  get_all_arcs c' = get_all_arcs c /\
  get_all_neighboring_arcs c' name = Ok [].
Proof.
  assert (Hset : forall (V : Type) (v : V) (d : dict V),
             dict_get name d = None -> dict_set name v d = d ++ [(name, v)]).
  { intros V v d. induction d as [|[k0 v0] r IH]; simpl; [reflexivity|].
    destruct (String.eqb name k0); [discriminate|].
    intros H. now rewrite IH. }
  intros Hd Hc. simpl. repeat split.
  - now apply Hset.
  - now apply Hset.
  - unfold get_all_arcs. simpl. rewrite (Hset _ _ _ Hc), flat_map_app.
    simpl. now rewrite app_nil_r.
  - unfold get_all_neighboring_arcs, dict_item. simpl.
    now rewrite dict_get_set_same.
Qed.

Lemma add_variable_fresh_witness :
  let c' := add_variable (store_of one_way) "C" [PInt 3] in
  variables c' = variables (store_of one_way) ++ ["C"] /\
  domains c' = domains (store_of one_way) ++ [("C", [PInt 3])] /\
  constraints c' = constraints (store_of one_way) ++ [("C", [])] /\
  get_all_arcs c' = get_all_arcs (store_of one_way) /\
  get_all_neighboring_arcs c' "C" = Ok [].
Proof.
  apply (add_variable_fresh (store_of one_way) "C" [PInt 3]); reflexivity.
Defined.

(* ================================================================= *)
(** ** Propagation only narrows *)

Lemma slot_le_refl (d : pydom) : slot_le d d.
Proof. now left. Qed.

Lemma slot_le_trans (d1 d2 d3 : pydom) :
  slot_le d1 d2 -> slot_le d2 d3 -> slot_le d1 d3.
Proof.
  intros [->|(l2 & l1 & -> & -> & Hi1 & Hl1)] H23; [exact H23|].
  destruct H23 as [<-|(l3 & l2' & -> & E & Hi2 & Hl2)].
  - right. exists l2, l1. auto.
  - inversion E. subst l2'. right. exists l3, l1. repeat split; auto.
    + intros x Hx. auto.
    + lia.
Qed.

Lemma narrowed_refl (a : assignment) : narrowed a a.
Proof.
  induction a as [|kv r IH]; constructor; auto. split; [reflexivity|].
  apply slot_le_refl.
Qed.

Lemma narrowed_trans (a1 a2 a3 : assignment) :
  narrowed a1 a2 -> narrowed a2 a3 -> narrowed a1 a3.
Proof.
  intros H12. revert a3. induction H12 as [|kv1 kv2 r1 r2 [Hk Hs] _ IH];
    intros a3 H23; inversion H23 as [|? kv3 ? r3 [Hk' Hs'] Hr]; subst.
  - constructor.
  - constructor; [|now apply IH]. split; [congruence|].
    now apply slot_le_trans with (d2 := snd kv2).
Qed.

Lemma narrowed_dict_set (a : assignment) (i : string) (d d' : pydom) :
  dict_get i a = Some d -> slot_le d' d -> narrowed (dict_set i d' a) a.
Proof.
  induction a as [|[k v] r IH]; simpl; [discriminate|].
  destruct (String.eqb i k); intros H Hs.
  - inversion H. subst. constructor; [now split | apply narrowed_refl].
  - constructor; [split; [reflexivity | apply slot_le_refl]|].
    now apply IH.
Qed.

Lemma narrowed_keys (a' a : assignment) :
  narrowed a' a -> dict_keys a' = dict_keys a.
Proof.
  induction 1 as [|kv' kv r' r [Hk _] _ IH]; simpl; [reflexivity|].
  now rewrite Hk, IH.
Qed.

Lemma narrowed_get (a' a : assignment) (k : string) (d' : pydom) :
  narrowed a' a -> dict_get k a' = Some d' ->
  exists d, dict_get k a = Some d /\ slot_le d' d.
Proof.
  induction 1 as [|[k1 d1] [k2 d2] r' r [Hk Hs] _ IH]; simpl;
    [discriminate|]. simpl in Hk, Hs. subst k2.
  destruct (String.eqb k k1); [|exact IH].
  intros H. inversion H. subst. eauto.
Qed.

Lemma remove_first_incl (x : pyval) (l : list pyval) :
  incl (remove_first x l) l.
Proof.
  induction l as [|y r IH]; simpl; [apply incl_refl|].
  destruct (pyval_eqb x y).
  - now apply incl_tl, incl_refl.
  - intros z [->|Hz]; [now left | right; now apply IH].
Qed.

Section Narrowing.

Variable c : CSP.
Variable a : assignment.
Variables i j : string.

(** The loop returns the list as it was, or a shorter list of its
    values. *)
Lemma revise_list_narrows (fuel : nat) :
  forall l idx revised b l',
    revise_list fuel c a i j l idx revised = Ok (b, l') ->
    l' = l \/ (incl l' l /\ List.length l' < List.length l).
Proof.
  induction fuel as [|n IH]; intros l idx revised b l'; simpl.
  - intros H. inversion H. now left.
  - destruct (nth_error l idx) as [x|] eqn:Hx.
    2:{ intros H. inversion H. now left. }
    destruct (if String.eqb j i then Ok (DList l) else dict_item j a)
      as [dj|e]; simpl; [|discriminate].
    destruct (unsupported c i j x dj) as [[|]|e]; simpl; [| |discriminate].
    + pose proof (nth_error_existsb _ _ _ Hx) as Hin. rewrite Hin. simpl.
      destruct (Nat.ltb 1 (List.length l)); [|apply IH].
      intros H. apply IH in H. right.
      pose proof (remove_first_length _ _ Hin) as Hrm.
      pose proof (remove_first_incl x l) as Hincl.
      destruct H as [->|[Hi Hl]]; split; auto; try lia.
      intros z Hz. auto.
    + apply IH.
Qed.

Lemma revise_narrowed (b : bool) (a' : assignment) :
  revise c a i j = Ok (b, a') ->
  narrowed a' a /\ forall k, k <> i -> dict_get k a' = dict_get k a.
Proof.
  intros H.
  destruct (revise_inv _ _ _ _ _ _ H)
    as [(l & l' & Hg & Hl & ->)|(s & Hg & Hs & ->)].
  - split.
    + apply narrowed_dict_set with (1 := Hg).
      apply revise_list_narrows in Hl.
      destruct Hl as [->|[Hi Hlen]]; [now left|]. right. exists l, l'. auto.
    + intros k Hk. now apply dict_get_set_other.
  - split; [apply narrowed_refl | reflexivity].
Qed.

End Narrowing.

Lemma narrowed_values (a' a : assignment) (k : string) (xs' : list pyval) :
  narrowed a' a -> values_of a' k = Some xs' ->
  exists xs, values_of a k = Some xs /\ incl xs' xs /\
             List.length xs' <= List.length xs.
Proof.
  intros Hn Hv. destruct (values_of_inv _ _ _ Hv) as (d' & Hd' & Hxs').
  destruct (narrowed_get _ _ _ _ Hn Hd') as (d & Hd & Hs).
  unfold values_of. rewrite Hd.
  destruct Hs as [->|(l & l' & -> & -> & Hi & Hl)].
  - rewrite Hxs'. exists xs'. split; [reflexivity|]. split; [apply incl_refl|].
    lia.
  - simpl in *. inversion Hxs'. subst. exists l. repeat split; auto. lia.
Qed.

(** X9. [revise] touches the slot of [i] only, and only by taking values
    away: the keys and every other slot are as before, and the values of
    [i] after the call are values it had before. *)
Theorem revise_only_narrows (c : CSP) (a a' : assignment) (i j : string)
    (b : bool) :
  revise c a i j = Ok (b, a') ->
  dict_keys a' = dict_keys a /\
  (forall k, k <> i -> dict_get k a' = dict_get k a) /\
  (forall xs', values_of a' i = Some xs' ->
     exists xs, values_of a i = Some xs /\ incl xs' xs /\
                List.length xs' <= List.length xs).
Proof.
  intros H. destruct (revise_narrowed _ _ _ _ _ _ H) as [Hn Hf].
  split; [now apply narrowed_keys|]. split; [exact Hf|].
  intros xs'. now apply narrowed_values.
Qed.

Lemma revise_only_narrows_witness :
  dict_keys [("A", DList [PInt 2]); ("B", DList [PInt 1])] =
    dict_keys [("A", DList [PInt 1; PInt 2]); ("B", DList [PInt 1])] /\
  (forall k, k <> "A" ->
     dict_get k [("A", DList [PInt 2]); ("B", DList [PInt 1])] =
     dict_get k [("A", DList [PInt 1; PInt 2]); ("B", DList [PInt 1])]) /\
  (forall xs',
     values_of [("A", DList [PInt 2]); ("B", DList [PInt 1])] "A" = Some xs' ->
     exists xs,
       values_of [("A", DList [PInt 1; PInt 2]); ("B", DList [PInt 1])] "A"
         = Some xs /\ incl xs' xs /\ List.length xs' <= List.length xs).
Proof.
  apply (revise_only_narrows (store_of one_way)
           [("A", DList [PInt 1; PInt 2]); ("B", DList [PInt 1])]
           [("A", DList [PInt 2]); ("B", DList [PInt 1])] "A" "B" true).
  reflexivity.
Defined.

Lemma inference_round_narrowed (c : CSP) (a : assignment) (q : list arc)
    (r : round) :
  inference_round c a q = Ok r ->
  match r with
  | Return _ a1 => narrowed a1 a
  | Continue a1 _ => narrowed a1 a
  end.
Proof.
  unfold inference_round.
  destruct (list_pop q) as [[[i j] q1]|].
  2:{ intros H. inversion H. apply narrowed_refl. }
  destruct (revise c a i j) as [[revised a1]|e] eqn:Hr; cbn [bind];
    [|discriminate].
  destruct (revise_narrowed _ _ _ _ _ _ Hr) as [Hn _].
  destruct revised.
  - destruct (dict_item i a1) as [di|]; cbn [bind]; [|discriminate].
    destruct (py_not di); [intros H; inversion H; exact Hn|].
    destruct (get_all_neighboring_arcs c i); cbn [bind]; [|discriminate].
    intros H. inversion H. exact Hn.
  - intros H. inversion H. exact Hn.
Qed.

Lemma inference_narrowed (c : CSP) (fuel : nat) :
  forall a q b a',
    inference fuel c a q = Some (Ok (b, a')) -> narrowed a' a.
Proof.
  induction fuel as [|n IH]; intros a q b a'; [discriminate|].
  rewrite inference_unfold.
  destruct (inference_round c a q) as [[b1 a1|a1 q1]|e] eqn:Hr;
    [| |discriminate].
  - apply inference_round_narrowed in Hr. intros H. inversion H. now subst.
  - apply inference_round_narrowed in Hr. intros H.
    apply narrowed_trans with (a2 := a1); [now apply IH with (1 := H) | exact Hr].
Qed.

(** X10. Whatever the queue, when [inference] returns the assignment has
    the keys it had, in the same order, and every slot holds the sequence it
    held or a shorter list of its values: domains shrink, they never grow. *)
Theorem inference_only_narrows (c : CSP) (fuel : nat) (a a' : assignment)
    (queue : list arc) (b : bool) :
  inference fuel c a queue = Some (Ok (b, a')) ->
  narrowed a' a /\
  dict_keys a' = dict_keys a /\
  (forall k xs', values_of a' k = Some xs' ->
     exists xs, values_of a k = Some xs /\ incl xs' xs /\
                List.length xs' <= List.length xs).
Proof.
  intros H. apply inference_narrowed in H.
  split; [exact H|]. split; [now apply narrowed_keys|].
  intros k xs'. now apply narrowed_values.
Qed.

Lemma inference_only_narrows_witness :
  narrowed [("A", DList [PInt 2]); ("B", DList [PInt 1])]
           [("A", DList [PInt 1; PInt 2]); ("B", DList [PInt 1])].
Proof.
  apply (inference_only_narrows (store_of one_way) 5
           [("A", DList [PInt 1; PInt 2]); ("B", DList [PInt 1])]
           [("A", DList [PInt 2]); ("B", DList [PInt 1])]
           (get_all_arcs (store_of one_way)) true).
  reflexivity.
Defined.

(* ================================================================= *)
(** ** What the result of [revise] tells *)

Lemma pairs_of_one (x : pyval) (ys : list pyval) :
  get_all_possible_pairs [x] ys = map (fun y => (x, y)) ys.
Proof.
  unfold get_all_possible_pairs. simpl. now rewrite app_nil_r.
Qed.

Lemma count_legal_table (c : CSP) (i j : string) (t : table)
    (arcs : list (pyval * pyval)) :
  table_of c i j = Some t ->
  count_legal c i j arcs
    = Ok (List.length (filter (fun arc => pair_in arc t) arcs)).
Proof.
  unfold count_legal, table_of, dict_item. intros Ht.
  destruct arcs as [|p ps]; [reflexivity|].
  destruct (dict_get i (constraints c)) as [m|]; [|discriminate].
  cbn [bind]. change (list (pyval * pyval)) with table. now rewrite Ht.
Qed.

(** A value passes the test of [revise] when it has a partner in the
    table. *)
Lemma unsupported_false_inv (c : CSP) (i j : string) (x : pyval) (dj : pydom) :
  unsupported c i j x dj = Ok false ->
  exists t ys y, table_of c i j = Some t /\ py_iter dj = Ok ys /\
                 In y ys /\ In (x, y) t.
Proof.
  unfold unsupported. destruct (py_iter dj) as [ys|e]; cbn [bind];
    [|discriminate].
  rewrite pairs_of_one. destruct ys as [|y0 ys0]; [discriminate|].
  destruct (table_of c i j) as [t|] eqn:Ht.
  - rewrite (count_legal_table c i j t _ Ht). cbn [bind].
    intros H.
    destruct (filter (fun arc => pair_in arc t)
                     (map (fun y => (x, y)) (y0 :: ys0))) as [|p ps] eqn:Ef;
      [discriminate H|].
    assert (Hp : In p (filter (fun arc => pair_in arc t)
                              (map (fun y => (x, y)) (y0 :: ys0))))
      by (rewrite Ef; now left).
    apply filter_In in Hp. destruct Hp as [Hp1 Hp2].
    apply in_map_iff in Hp1. destruct Hp1 as (y & <- & Hy).
    apply pair_in_In in Hp2. exists t, (y0 :: ys0), y. auto.
  - unfold count_legal, table_of, dict_item in *. simpl.
    destruct (dict_get i (constraints c)) as [m|]; cbn [bind];
      [|discriminate].
    change (list (pyval * pyval)) with table. rewrite Ht. discriminate.
Qed.

(** A value fails the test only when no value of [dj] is its partner. *)
Lemma unsupported_true_inv (c : CSP) (i j : string) (x : pyval) (dj : pydom) :
  unsupported c i j x dj = Ok true ->
  exists ys, py_iter dj = Ok ys /\
    forall t y, table_of c i j = Some t -> In y ys -> ~ In (x, y) t.
Proof.
  unfold unsupported. destruct (py_iter dj) as [ys|e]; cbn [bind];
    [|discriminate].
  intros H. exists ys. split; [reflexivity|]. intros t y Ht Hy Hxy.
  rewrite (count_legal_table c i j t _ Ht) in H. cbn [bind] in H.
  rewrite (filter_length_pos (fun arc => pair_in arc t)
             (get_all_possible_pairs [x] ys) (x, y)) in H;
    [discriminate| |].
  - apply in_prod; [now left | exact Hy].
  - now apply pair_in_In.
Qed.

Section ReviseResult.

Variable c : CSP.
Variable a : assignment.
Variables i j : string.

Lemma revise_list_false (fuel : nat) :
  forall l idx l',
    revise_list fuel c a i j l idx false = Ok (false, l') ->
    List.length l - idx <= fuel ->
    l' = l /\
    forall k x, idx <= k -> nth_error l k = Some x ->
      exists dj, (if String.eqb j i then Ok (DList l) else dict_item j a)
                 = Ok dj /\
                 unsupported c i j x dj = Ok false.
Proof.
  induction fuel as [|n IH]; intros l idx l' H Hlen.
  - simpl in H. inversion H. split; [reflexivity|].
    intros k x Hk Hx.
    assert (k < List.length l) by (apply nth_error_Some; congruence). lia.
  - simpl in H. destruct (nth_error l idx) as [x0|] eqn:Hx0.
    2:{ inversion H. split; [reflexivity|]. intros k x Hk Hx.
        apply nth_error_None in Hx0.
        assert (k < List.length l) by (apply nth_error_Some; congruence).
        lia. }
    destruct (if String.eqb j i then Ok (DList l) else dict_item j a)
      as [dj|e] eqn:Hdj; simpl in H; [|discriminate].
    destruct (unsupported c i j x0 dj) as [[|]|e] eqn:Hu; simpl in H;
      [| |discriminate].
    + exfalso.
      destruct (existsb (pyval_eqb x0) l && Nat.ltb 1 (List.length l));
        apply revise_list_inv in H; destruct H as (_ & _ & H3 & _);
        discriminate (H3 eq_refl).
    + apply IH in H; [|lia]. destruct H as [-> Hall].
      split; [reflexivity|]. intros k x Hk Hx.
      destruct (Nat.eq_dec k idx) as [E|Hne].
      * rewrite E, Hx0 in Hx. inversion Hx. subst. eauto.
      * destruct (Hall k x) as (dj0 & H1 & H2); [lia | exact Hx |].
        rewrite Hdj in H1. eauto.
Qed.

Lemma revise_str_flag (s : string) (xs : list pyval) (b : bool) :
  revise_str c a i j s xs true = Ok b -> b = true.
Proof.
  revert b. induction xs as [|x rest IH]; intros b; cbn [revise_str bind].
  - intros H. now inversion H.
  - destruct (dict_item j a) as [dj|e]; cbn [bind]; [|discriminate].
    destruct (unsupported c i j x dj) as [[|]|e]; cbn [bind];
      [| |discriminate]; [|apply IH].
    destruct (py_contains x (DAtom (PStr s))) as [isin|e]; cbn [bind];
      [|discriminate].
    destruct (isin && Nat.ltb 1 (String.length s)); [discriminate|apply IH].
Qed.

Lemma revise_str_false (s : string) (xs : list pyval) :
  revise_str c a i j s xs false = Ok false ->
  forall x, In x xs ->
    exists dj, dict_item j a = Ok dj /\ unsupported c i j x dj = Ok false.
Proof.
  induction xs as [|x0 rest IH]; cbn [revise_str bind]; [intros _ x []|].
  destruct (dict_item j a) as [dj|e]; cbn [bind]; [|discriminate].
  destruct (unsupported c i j x0 dj) as [[|]|e] eqn:Hu; cbn [bind];
    [| |discriminate].
  - destruct (py_contains x0 (DAtom (PStr s))) as [isin|e]; cbn [bind];
      [|discriminate].
    destruct (isin && Nat.ltb 1 (String.length s)); [discriminate|].
    intros H. apply revise_str_flag in H. discriminate.
  - intros H x [<-|Hx]; [eauto | now apply IH].
Qed.

(** The values the loop has dropped failed the test, when [j] is another
    variable than [i]. *)
Lemma revise_list_dropped (dj : pydom) (fuel : nat) :
  String.eqb j i = false -> dict_item j a = Ok dj ->
  forall l idx revised b l',
    revise_list fuel c a i j l idx revised = Ok (b, l') ->
    forall x, In x l -> ~ In x l' -> unsupported c i j x dj = Ok true.
Proof.
  intros Hji Hdj. induction fuel as [|n IH]; intros l idx revised b l'; simpl.
  - intros H x Hx Hnx. inversion H. subst. contradiction.
  - destruct (nth_error l idx) as [x0|] eqn:Hx0.
    2:{ intros H x Hx Hnx. inversion H. subst. contradiction. }
    rewrite Hji, Hdj. cbn [bind].
    destruct (unsupported c i j x0 dj) as [[|]|e] eqn:Hu; cbn [bind];
      [| |discriminate]; [|apply IH].
    destruct (existsb (pyval_eqb x0) l && Nat.ltb 1 (List.length l));
      [|apply IH].
    intros H x Hx Hnx.
    destruct (pyval_eqb x0 x) eqn:E.
    + apply pyval_eqb_eq in E. now subst.
    + apply (IH _ _ _ _ _ H); [|exact Hnx].
      clear - Hx E. induction l as [|y r IHl]; simpl in *; [contradiction|].
      destruct (pyval_eqb x0 y) eqn:Ey.
      * destruct Hx as [->|Hx]; [congruence | exact Hx].
      * destruct Hx as [->|Hx]; [now left | right; auto].
Qed.

End ReviseResult.

(** X11. When [revise] returns false it has changed nothing, and the arc
    is consistent: every value of [i] has a value of [j] with which it is in
    the table of [(i, j)]. *)
Theorem revise_false_consistent (c : CSP) (a a' : assignment) (i j : string) :
  revise c a i j = Ok (false, a') ->
  a' = a /\
  forall xs x, values_of a i = Some xs -> In x xs ->
    exists t ys y, table_of c i j = Some t /\ values_of a j = Some ys /\
                   In y ys /\ In (x, y) t.
Proof.
  intros H.
  destruct (revise_inv _ _ _ _ _ _ H)
    as [(l & l' & Hg & Hl & ->)|(s & Hg & Hs & ->)].
  - apply revise_list_false in Hl; [|lia]. destruct Hl as [-> Hall].
    split; [now apply dict_set_id|].
    intros xs x Hxs Hx. unfold values_of in Hxs. rewrite Hg in Hxs.
    simpl in Hxs. inversion Hxs. subst xs.
    apply In_nth_error in Hx. destruct Hx as (k & Hk).
    destruct (Hall k x (Nat.le_0_l k) Hk) as (dj & Hdj & Hu).
    destruct (unsupported_false_inv _ _ _ _ _ Hu) as (t & ys & y & Ht & Hys & Hy & Hxy).
    exists t, ys, y. repeat split; auto.
    unfold values_of. destruct (String.eqb j i) eqn:E.
    + apply String.eqb_eq in E. subst j. inversion Hdj. subst dj.
      rewrite Hg. now rewrite Hys.
    + unfold dict_item in Hdj. destruct (dict_get j a); [|discriminate].
      inversion Hdj. subst. now rewrite Hys.
  - split; [reflexivity|].
    intros xs x Hxs Hx. unfold values_of in Hxs. rewrite Hg in Hxs.
    simpl in Hxs. inversion Hxs. subst xs.
    destruct (revise_str_false _ _ _ _ _ _ Hs x Hx) as (dj & Hdj & Hu).
    destruct (unsupported_false_inv _ _ _ _ _ Hu) as (t & ys & y & Ht & Hys & Hy & Hxy).
    exists t, ys, y. repeat split; auto.
    unfold values_of. unfold dict_item in Hdj.
    destruct (dict_get j a); [|discriminate].
    inversion Hdj. subst. now rewrite Hys.
Qed.

Lemma revise_false_consistent_witness :
  initial_assignment (store_of one_way) = initial_assignment (store_of one_way)
  /\
  forall xs x,
    values_of (initial_assignment (store_of one_way)) "A" = Some xs ->
    In x xs ->
    exists t ys y,
      table_of (store_of one_way) "A" "B" = Some t /\
      values_of (initial_assignment (store_of one_way)) "B" = Some ys /\
      In y ys /\ In (x, y) t.
Proof.
  apply (revise_false_consistent (store_of one_way)
           (initial_assignment (store_of one_way))
           (initial_assignment (store_of one_way)) "A" "B").
  reflexivity.
Defined.

(** X12. [revise] drops no value that has a partner: for an arc between
    two different variables, a value of [i] that is gone after the call has
    no value of [j] with which it is in the table of [(i, j)]. *)
Theorem revise_drops_unsupported (c : CSP) (a a' : assignment) (i j : string)
    (b : bool) (xs xs' : list pyval) (x : pyval) :
  revise c a i j = Ok (b, a') ->
  i <> j ->
  values_of a i = Some xs -> values_of a' i = Some xs' ->
  In x xs -> ~ In x xs' ->
  exists ys, values_of a j = Some ys /\
    forall t y, table_of c i j = Some t -> In y ys -> ~ In (x, y) t.
Proof.
  intros H Hne Hxs Hxs' Hx Hnx.
  destruct (revise_inv _ _ _ _ _ _ H)
    as [(l & l' & Hg & Hl & ->)|(s & Hg & Hs & ->)].
  2:{ rewrite Hxs in Hxs'. inversion Hxs'. subst. contradiction. }
  unfold values_of in Hxs, Hxs'. rewrite Hg in Hxs.
  rewrite dict_get_set_same in Hxs'. simpl in Hxs, Hxs'.
  inversion Hxs. inversion Hxs'. subst xs xs'.
  assert (Eji : String.eqb j i = false) by (apply String.eqb_neq; congruence).
  destruct (dict_item j a) as [dj|e] eqn:Hdj.
  - pose proof (revise_list_dropped c a i j dj _ Eji Hdj _ _ _ _ _ Hl x Hx Hnx)
      as Hu.
    destruct (unsupported_true_inv _ _ _ _ _ Hu) as (ys & Hys & Hno).
    exists ys. split; [|exact Hno].
    unfold values_of. unfold dict_item in Hdj.
    destruct (dict_get j a); [|discriminate]. inversion Hdj. subst.
    now rewrite Hys.
  - exfalso. destruct l as [|x0 r]; [destruct Hx|].
    simpl in Hl. rewrite Eji, Hdj in Hl. discriminate.
Qed.

Lemma revise_drops_unsupported_witness :
  exists ys,
    values_of [("A", DList [PInt 1; PInt 2]); ("B", DList [PInt 1])] "B"
      = Some ys /\
    forall t y, table_of (store_of one_way) "A" "B" = Some t ->
                In y ys -> ~ In (PInt 1, y) t.
Proof.
  apply (revise_drops_unsupported (store_of one_way)
           [("A", DList [PInt 1; PInt 2]); ("B", DList [PInt 1])]
           [("A", DList [PInt 2]); ("B", DList [PInt 1])] "A" "B" true
           [PInt 1; PInt 2] [PInt 2] (PInt 1)).
  - reflexivity.
  - discriminate.
  - reflexivity.
  - reflexivity.
  - now left.
  - intros [H|[]]. discriminate.
Defined.

(* ================================================================= *)
(** ** [select_unassigned_variable] without a candidate *)

Lemma py_min_all_inf (a : assignment) (best : string) (rest : list string) :
  (forall v, In v rest -> mrv_key a v = Ok KInf) ->
  py_min a best KInf rest = Ok best.
Proof.
  induction rest as [|v r IH]; intros H; simpl; [reflexivity|].
  rewrite (H v (or_introl eq_refl)). cbn [bind key_lt].
  apply IH. intros w Hw. apply H. now right.
Qed.

(** X13. When no slot holds two values or more, [select_unassigned_variable]
    returns the first variable of the assignment; on an assignment without
    variables it raises [ValueError]. *)
Theorem select_unassigned_variable_no_candidate (v0 : string) (d0 : pydom)
    (rest : assignment) :
  NoDup (dict_keys ((v0, d0) :: rest)) ->
  (forall k d, In (k, d) ((v0, d0) :: rest) ->
     exists n, py_len d = Ok n /\ n < 2) ->
  select_unassigned_variable ((v0, d0) :: rest) = Ok v0 /\
  select_unassigned_variable [] = Raise ValueError.
Proof.
  intros Hnd Hsmall. split; [|reflexivity].
  assert (Hkey : forall k d, In (k, d) ((v0, d0) :: rest) ->
                   mrv_key ((v0, d0) :: rest) k = Ok KInf).
  { intros k d Hin. destruct (Hsmall k d Hin) as (n & Hn & Hlt).
    unfold mrv_key, dict_item. rewrite (In_dict_get _ _ _ Hnd Hin).
    cbn [bind]. rewrite Hn. cbn [bind].
    apply Nat.ltb_lt in Hlt. now rewrite Hlt. }
  unfold select_unassigned_variable. cbn [dict_keys map fst].
  rewrite (Hkey v0 d0 (or_introl eq_refl)). cbn [bind].
  apply py_min_all_inf. intros v Hv.
  apply in_map_iff in Hv. destruct Hv as ([k d] & <- & Hin).
  apply (Hkey k d). now right.
Qed.

Lemma select_unassigned_variable_no_candidate_witness :
  select_unassigned_variable
    [("A", DList [PInt 1]); ("B", DList []); ("C", DAtom (PStr "x"))]
    = Ok "A" /\
  select_unassigned_variable [] = Raise ValueError.
Proof.
  apply (select_unassigned_variable_no_candidate "A" (DList [PInt 1])
           [("B", DList []); ("C", DAtom (PStr "x"))]).
  - simpl. repeat constructor; simpl; intuition discriminate.
  - intros k d H. simpl in H.
    destruct H as [H|[H|[H|[]]]]; inversion H; subst; eexists;
      (split; [reflexivity | simpl; lia]).
Defined.

(* ================================================================= *)
(** ** The search driver: what it returns and what it leaves *)

Lemma sum_len_ones (a : assignment) :
  (forall k d, In (k, d) a -> py_len d = Ok 1) ->
  sum_len a = Ok (List.length a).
Proof.
  unfold sum_len, dict_values. intros H.
  assert (G : forall s, fold_left
                (fun (acc : res nat) (d : pydom) =>
                   s0 <- acc ;; n <- py_len d ;; Ok (s0 + n))
                (map snd a) (Ok s) = Ok (s + List.length a)).
  { induction a as [|[k d] r IH]; intros s; simpl.
    - now rewrite Nat.add_0_r.
    - rewrite (H k d (or_introl eq_refl)). cbn [bind].
      rewrite IH; [f_equal; lia|]. intros k0 d1 Hin. apply (H k0). now right. }
  apply (G 0).
Qed.

(** X14. A store whose domains all hold one value, and whose values satisfy
    every table, is returned as its own solution: [backtracking_search]
    returns the domains as they are, after one visit and no failure. *)
Theorem backtracking_search_solved (c : CSP) (fuel : nat) :
  wf_store c ->
  (forall k d, In (k, d) (domains c) -> List.length d = 1) ->
  arc_consistent c (initial_assignment c) ->
  List.length (get_all_arcs c) < fuel ->
  backtracking_search fuel c =
    Some (Ok (Some (initial_assignment c), set_counters c 1 0)).
Proof.
  intros Hwf Hone Hac Hlen. unfold backtracking_search.
  rewrite inference_arc_consistent; auto.
  2:{ intros i j. now apply get_all_arcs_table. }
  destruct fuel as [|n]; [lia|]. simpl.
  rewrite sum_len_ones.
  - now rewrite Nat.eqb_refl.
  - unfold initial_assignment. intros k d Hin.
    apply in_map_iff in Hin. destruct Hin as ([k0 l] & E & Hin).
    inversion E. subst. simpl. f_equal. eapply Hone. exact Hin.
Qed.

Lemma backtracking_search_solved_witness :
  backtracking_search 3
    (store_of (add_constraint_two_way
                 (add_variable (add_variable CSP_init "A" [PInt 1])
                               "B" [PInt 2]) "A" "B")) =
  Some (Ok (Some [("A", DList [PInt 1]); ("B", DList [PInt 2])],
            set_counters
              (store_of (add_constraint_two_way
                 (add_variable (add_variable CSP_init "A" [PInt 1])
                               "B" [PInt 2]) "A" "B")) 1 0)).
Proof.
  apply (backtracking_search_solved
           (store_of (add_constraint_two_way
                 (add_variable (add_variable CSP_init "A" [PInt 1])
                               "B" [PInt 2]) "A" "B")) 3).
  - unfold wf_store. simpl. repeat constructor; simpl; intuition discriminate.
  - intros k d H. simpl in H. destruct H as [H|[H|[]]]; inversion H;
      reflexivity.
  - apply arc_consistentb_sound. vm_compute. reflexivity.
  - simpl. lia.
Defined.

Section TryValuesFacts.

Variable infer : CSP -> assignment -> list arc -> option (res (bool * assignment)).
Variable recur : CSP -> assignment -> outcome.

Hypothesis infer_keys :
  forall c b q r b', infer c b q = Some (Ok (r, b')) ->
                     dict_keys b' = dict_keys b.
Hypothesis recur_shape :
  forall c b a' c', recur c b = Some (Ok (Some a', c')) -> shape b a'.
Hypothesis recur_counted :
  forall c b r c', recur c b = Some (Ok (r, c')) ->
                   counted c c' /\
                   (r = None ->
                    backtrack_failure_counter c < backtrack_failure_counter c').

Lemma try_values_shape (a : assignment) (var : string) (dv : pydom) :
  dict_get var a = Some dv ->
  forall vals c a' c',
    try_values infer recur a var vals c = Some (Ok (Some a', c')) ->
    shape a a'.
Proof.
  intros Hvar. induction vals as [|value rest IH]; intros c a' c'; simpl;
    [discriminate|].
  destruct (infer c (branch_assignment a var value) (get_all_arcs c))
    as [[[[|] na]|e]|] eqn:Ei; try discriminate; [|apply IH].
  destruct (recur _ na) as [[[result c2]|e]|] eqn:Er; try discriminate.
  destruct (truthy result) eqn:Et; [|apply IH].
  intros H. inversion H. subst.
  destruct (recur_shape _ _ _ _ Er) as [Hk Hs]. split; [|exact Hs].
  rewrite Hk, (infer_keys _ _ _ _ _ Ei). unfold branch_assignment.
  now apply dict_set_keys with (v0 := dv).
Qed.

Lemma try_values_counted (a : assignment) (var : string) :
  forall vals c r c',
    try_values infer recur a var vals c = Some (Ok (r, c')) ->
    counted c c' /\
    (r = None ->
     backtrack_failure_counter c < backtrack_failure_counter c').
Proof.
  induction vals as [|value rest IH]; intros c r c'; simpl.
  - intros H. inversion H. subst. unfold counted, same_store. simpl.
    repeat split; auto; lia.
  - destruct (infer c (branch_assignment a var value) (get_all_arcs c))
      as [[[[|] na]|e]|]; try discriminate; [|apply IH].
    destruct (recur _ na) as [[[result c2]|e]|] eqn:Er; try discriminate.
    destruct (recur_counted _ _ _ _ Er)
      as [((Hv & Hd & Hc) & H1 & H2 & H3) _]. simpl in *.
    destruct (truthy result) eqn:Et.
    + intros H. inversion H. subst. unfold counted, same_store.
      split; [repeat split; auto; lia|].
      intros ->. discriminate.
    + intros H. apply IH in H.
      destruct H as [((Hv' & Hd' & Hc') & H1' & H2' & H3') Hn].
      unfold counted, same_store.
      split; [repeat split; try congruence; lia|].
      intros E. specialize (Hn E). lia.
Qed.

End TryValuesFacts.

Lemma backtrack_shape (fuel : nat) :
  forall c a a' c',
    backtrack fuel c a = Some (Ok (Some a', c')) -> shape a a'.
Proof.
  induction fuel as [|n IH]; intros c a a' c'; [discriminate|]. simpl.
  destruct (sum_len a) as [total|e] eqn:Es; [|discriminate].
  destruct (Nat.eqb total (List.length a)) eqn:Et.
  - intros H. inversion H. subst. apply Nat.eqb_eq in Et. subst total.
    split; [reflexivity | exact Es].
  - destruct (select_unassigned_variable a) as [var|e]; cbn [bind];
      [|discriminate].
    destruct (dict_item var a) as [dv|e] eqn:Ed; cbn [bind]; [|discriminate].
    destruct (py_iter dv) as [vals|e]; cbn [bind]; [|discriminate].
    unfold dict_item in Ed. destruct (dict_get var a) as [dv0|] eqn:Eg;
      [|discriminate].
    apply try_values_shape with (dv := dv0); auto.
    intros c0 b q r b' Hi. apply inference_narrowed in Hi.
    now apply narrowed_keys.
Qed.

Lemma backtrack_counted (fuel : nat) :
  forall c a r c',
    backtrack fuel c a = Some (Ok (r, c')) ->
    counted c c' /\
    (r = None ->
     backtrack_failure_counter c < backtrack_failure_counter c').
Proof.
  induction fuel as [|n IH]; intros c a r c'; [discriminate|]. simpl.
  destruct (sum_len a) as [total|e]; [|discriminate].
  destruct (Nat.eqb total (List.length a)).
  - intros H. inversion H. subst. unfold counted, same_store.
    split; [repeat split; auto; lia | discriminate].
  - destruct (select_unassigned_variable a) as [var|e]; cbn [bind];
      [|discriminate].
    destruct (dict_item var a) as [dv|e]; cbn [bind]; [|discriminate].
    destruct (py_iter dv) as [vals|e]; cbn [bind]; [|discriminate].
    apply try_values_counted. exact IH.
Qed.

(** X15. An assignment that [backtracking_search] returns has a slot for
    every variable of the store, in the order of registration, and the
    lengths of its slots add up to the number of variables. *)
Theorem backtracking_search_shape (fuel : nat) (c c' : CSP) (a' : assignment) :
  backtracking_search fuel c = Some (Ok (Some a', c')) ->
  dict_keys a' = dict_keys (domains c) /\
  sum_len a' = Ok (List.length (domains c)).
Proof.
  unfold backtracking_search.
  destruct (inference fuel c (initial_assignment c) (get_all_arcs c))
    as [[[b a1]|e]|] eqn:Ei; try discriminate.
  intros H. apply backtrack_shape in H. destruct H as [Hk Hs].
  apply inference_narrowed, narrowed_keys in Ei.
  assert (Ek : dict_keys (initial_assignment c) = dict_keys (domains c)).
  { unfold initial_assignment, dict_keys. rewrite map_map. reflexivity. }
  assert (Ek' : dict_keys a' = dict_keys (domains c)) by congruence.
  split; [exact Ek'|]. rewrite Hs. f_equal.
  unfold dict_keys in Ek'. rewrite <- (length_map fst a'), Ek'.
  apply length_map.
Qed.

Lemma backtracking_search_shape_witness :
  dict_keys [("A", DAtom (PStr "1")); ("B", DList [PStr "1"]);
             ("C", DList [PStr "2"])]
    = dict_keys (domains (store_of three_of_two)) /\
  sum_len [("A", DAtom (PStr "1")); ("B", DList [PStr "1"]);
           ("C", DList [PStr "2"])]
    = Ok (List.length (domains (store_of three_of_two))).
Proof.
  apply (backtracking_search_shape 30 (store_of three_of_two)
           (set_counters (store_of three_of_two) 2 0)).
  vm_compute. reflexivity.
Defined.

(** X16. The search only reads the store: when [backtracking_search]
    returns, the variables, domains and tables are those it was given; the
    visit counter is at least one and the failure counter is at most the
    visit counter; and when the answer is [None], at least one failure was
    counted. *)
Theorem backtracking_search_counters (fuel : nat) (c c' : CSP)
    (r : option assignment) :
  backtracking_search fuel c = Some (Ok (r, c')) ->
  same_store c' c /\
  1 <= backtrack_counter c' /\
  backtrack_failure_counter c' <= backtrack_counter c' /\
  (r = None -> 1 <= backtrack_failure_counter c').
Proof.
  unfold backtracking_search.
  destruct (inference fuel c (initial_assignment c) (get_all_arcs c))
    as [[[b a1]|e]|]; try discriminate.
  intros H. apply backtrack_counted in H.
  destruct H as [((Hv & Hd & Hc) & H1 & H2 & H3) Hn]. simpl in *.
  unfold same_store. repeat split; auto; try lia.
Qed.

Lemma backtracking_search_counters_witness :
  same_store (set_counters (store_of three_of_two) 2 0)
             (store_of three_of_two) /\
  1 <= backtrack_counter (set_counters (store_of three_of_two) 2 0) /\
  backtrack_failure_counter (set_counters (store_of three_of_two) 2 0)
    <= backtrack_counter (set_counters (store_of three_of_two) 2 0) /\
  (Some [("A", DAtom (PStr "1")); ("B", DList [PStr "1"]);
         ("C", DList [PStr "2"])] = None ->
   1 <= backtrack_failure_counter (set_counters (store_of three_of_two) 2 0)).
Proof.
  apply (backtracking_search_counters 30 (store_of three_of_two)).
  vm_compute. reflexivity.
Defined.

Lemma add_constraint_one_way_raises_witness :
  add_constraint_one_way CSP_init "A" "B" not_equal = Raise KeyError.
Proof.
  apply (proj2 (add_constraint_one_way_raises CSP_init "A" "B" not_equal)).
  left. reflexivity.
Defined.

Lemma store_coherent_kept_witness :
  store_coherent (add_variable CSP_init "A" [PInt 1]).
Proof.
  apply (proj1 (proj2 store_coherent_kept)).
  apply (proj1 store_coherent_kept).
Defined.

(* ================================================================= *)
(** ** The builder of Sudoku stores *)

Lemma peersb_spec (groups : list (list string)) (i j : string) :
  peersb groups i j = true <-> peers groups i j.
Proof.
  unfold peersb, peers. rewrite andb_true_iff, negb_true_iff, String.eqb_neq.
  rewrite existsb_exists. split; intros [Hne (g & Hg & H)]; (split; [exact Hne|]);
    exists g; (split; [exact Hg|]).
  - apply andb_true_iff in H. destruct H as [H1 H2].
    apply existsb_exists in H1, H2.
    destruct H1 as (x & Hx & E1). destruct H2 as (y & Hy & E2).
    apply String.eqb_eq in E1, E2. now subst.
  - destruct H as [Hi Hj]. apply andb_true_iff. split; apply existsb_exists.
    + exists i. split; [exact Hi | apply String.eqb_refl].
    + exists j. split; [exact Hj | apply String.eqb_refl].
Qed.

Lemma in_sudoku_cells (row col : nat) :
  In (row, col) sudoku_cells <-> row < 9 /\ col < 9.
Proof.
  unfold sudoku_cells. rewrite in_prod_iff, !in_seq. lia.
Qed.

(** The first loops stop with [IndexError] at a missing character, and
    else register every cell. *)
Lemma add_cells_result (board : list string) (cells : list (nat * nat)) :
  forall c0,
    fold_left (add_cell board) cells (Built c0) =
      if forallb (fun rc => match board_item board (fst rc) (snd rc) with
                            | Some _ => true
                            | None => false
                            end) cells
      then Built (register_cells board cells c0)
      else Failed IndexError.
Proof.
  induction cells as [|rc rest IH]; intros c0; [reflexivity|].
  cbn [fold_left forallb]. unfold add_cell at 2, register_cells, cell_domain.
  cbn [fold_left].
  destruct (board_item board (fst rc) (snd rc)) as [ch|]; cbn [andb].
  - rewrite IH. reflexivity.
  - clear IH. induction rest as [|p r IHr]; [reflexivity | exact IHr].
Qed.

Section RegisterCells.

Variable board : list string.

Lemma register_cells_cons (rc : nat * nat) (rest : list (nat * nat))
    (c0 : CSP) :
  register_cells board (rc :: rest) c0 =
    register_cells board rest
      (add_variable c0 (cell_name (fst rc) (snd rc)) (cell_domain board rc)).
Proof. reflexivity. Qed.

Lemma register_cells_variables (cells : list (nat * nat)) :
  forall c0,
    variables (register_cells board cells c0) =
      variables c0 ++ map (fun rc => cell_name (fst rc) (snd rc)) cells.
Proof.
  induction cells as [|rc rest IH]; intros c0.
  - cbn [map]. now rewrite app_nil_r.
  - rewrite register_cells_cons, IH. cbn [map add_variable variables].
    now rewrite <- app_assoc.
Qed.

Lemma register_cells_coherent (cells : list (nat * nat)) :
  forall c0, store_coherent c0 ->
             store_coherent (register_cells board cells c0).
Proof.
  induction cells as [|rc rest IH]; intros c0 Hc; [exact Hc|].
  rewrite register_cells_cons. apply IH.
  now apply store_coherent_add_variable.
Qed.

Lemma register_cells_no_table (cells : list (nat * nat)) :
  forall c0, (forall i j, table_of c0 i j = None) ->
             forall i j, table_of (register_cells board cells c0) i j = None.
Proof.
  induction cells as [|rc rest IH]; intros c0 H0; [exact H0|].
  rewrite register_cells_cons. apply IH. intros i j. unfold table_of.
  cbn [add_variable constraints].
  destruct (string_dec i (cell_name (fst rc) (snd rc))) as [->|N].
  - now rewrite dict_get_set_same.
  - rewrite dict_get_set_other by exact N. apply H0.
Qed.

Lemma register_cells_other (cells : list (nat * nat)) (name : string) :
  ~ In name (map (fun rc => cell_name (fst rc) (snd rc)) cells) ->
  forall c0, dict_get name (domains (register_cells board cells c0))
             = dict_get name (domains c0).
Proof.
  induction cells as [|rc rest IH]; intros Hn c0; [reflexivity|].
  cbn [map] in Hn. rewrite register_cells_cons, IH.
  - cbn [add_variable domains]. apply dict_get_set_other.
    intros E. apply Hn. now left.
  - intros H. apply Hn. now right.
Qed.

Lemma register_cells_domain (cells : list (nat * nat)) :
  NoDup (map (fun rc => cell_name (fst rc) (snd rc)) cells) ->
  forall c0 rc, In rc cells ->
    dict_get (cell_name (fst rc) (snd rc))
             (domains (register_cells board cells c0))
      = Some (cell_domain board rc).
Proof.
  induction cells as [|rc0 rest IH]; intros Hnd c0 rc Hin; [destruct Hin|].
  cbn [map] in Hnd. inversion Hnd as [|? ? Hnotin Hnd']. subst.
  rewrite register_cells_cons. destruct Hin as [->|Hin].
  - rewrite register_cells_other by exact Hnotin.
    cbn [add_variable domains]. apply dict_get_set_same.
  - now apply IH.
Qed.

End RegisterCells.

Lemma inb_In (v : string) (g : list string) : inb v g = true <-> In v g.
Proof.
  unfold inb. rewrite existsb_exists. split.
  - intros (x & Hx & E). apply String.eqb_eq in E. now subst.
  - intros H. exists v. split; [exact H | apply String.eqb_refl].
Qed.

Lemma full_table_domains (c c' : CSP) (i j : string) :
  domains c' = domains c -> full_table c' i j = full_table c i j.
Proof. unfold full_table. now intros ->. Qed.

Lemma base_full (c : CSP) (i j : string) (b : table) :
  tables_full c -> base_pairs c i j = Some b ->
  full_table c i j = Some (legal_pairs not_equal b).
Proof.
  intros Hfull. unfold base_pairs.
  destruct (table_of c i j) as [t|] eqn:Ht.
  - intros E. inversion E. subst b. pose proof (Hfull i j t Ht) as Hf.
    rewrite Hf. f_equal. unfold full_table in Hf.
    destruct (dict_get i (domains c)); [|discriminate].
    destruct (dict_get j (domains c)); [|discriminate].
    inversion Hf. now rewrite legal_pairs_idem.
  - unfold full_table.
    destruct (dict_get i (domains c)); [|discriminate].
    destruct (dict_get j (domains c)); [|discriminate].
    intros E. now inversion E.
Qed.

(** One call of [add_all_different_constraint] on a store whose tables
    are full. *)
Lemma add_all_different_full (c c1 : CSP) (g : list string) :
  add_all_different_constraint c g = Ok c1 -> tables_full c ->
  variables c1 = variables c /\ domains c1 = domains c /\ tables_full c1 /\
  forall i j, table_of c1 i j =
    if negb (String.eqb i j) && (inb i g && inb j g) then full_table c i j
    else table_of c i j.
Proof.
  intros H Hfull.
  destruct (add_all_different_effect _ _ _ H) as (Hv & Hd & Hin & _ & Hout).
  assert (Htab : forall i j, table_of c1 i j =
            if negb (String.eqb i j) && (inb i g && inb j g)
            then full_table c i j else table_of c i j).
  { intros i j.
    destruct (negb (String.eqb i j) && (inb i g && inb j g)) eqn:E.
    - apply andb_true_iff in E. destruct E as [En Eg].
      apply andb_true_iff in Eg. destruct Eg as [Ei Ej].
      apply negb_true_iff, String.eqb_neq in En. apply inb_In in Ei, Ej.
      destruct (Hin i j Ei Ej En) as (b & Hb & Ht).
      now rewrite Ht, (base_full _ _ _ _ Hfull Hb).
    - apply Hout. intros (Hi & Hj & Hne).
      apply inb_In in Hi, Hj. apply String.eqb_neq in Hne.
      rewrite Hi, Hj, Hne in E. discriminate. }
  repeat split; auto.
  intros i j t Ht. rewrite (full_table_domains _ _ _ _ Hd).
  rewrite Htab in Ht.
  destruct (negb (String.eqb i j) && (inb i g && inb j g));
    [exact Ht | now apply Hfull].
Qed.

Lemma add_groups_cons (g : list string) (rest : list (list string)) (c : CSP) :
  add_groups (g :: rest) c =
    match add_all_different_constraint c g with
    | Ok c1 => add_groups rest c1
    | Raise e => Raise e
    end.
Proof.
  unfold add_groups. cbn [fold_left bind].
  destruct (add_all_different_constraint c g) as [c1|e]; [reflexivity|].
  induction rest as [|p r IH]; [reflexivity | exact IH].
Qed.

(** The calls on all the lists, on a store whose tables are full. *)
Lemma add_groups_tables (groups : list (list string)) :
  forall c c',
    add_groups groups c = Ok c' -> tables_full c ->
    variables c' = variables c /\ domains c' = domains c /\ tables_full c' /\
    forall i j, table_of c' i j =
      if peersb groups i j then full_table c i j else table_of c i j.
Proof.
  induction groups as [|g rest IH]; intros c c' H Hfull.
  - inversion H. subst. repeat split; auto. intros i j.
    unfold peersb. simpl. now rewrite andb_false_r.
  - rewrite add_groups_cons in H.
    destruct (add_all_different_constraint c g) as [c1|e] eqn:E1;
      [|discriminate].
    destruct (add_all_different_full _ _ _ E1 Hfull)
      as (Hv1 & Hd1 & Hfull1 & Ht1).
    destruct (IH _ _ H Hfull1) as (Hv & Hd & Hfull' & Ht).
    split; [congruence|]. split; [congruence|]. split; [exact Hfull'|].
    intros i j. rewrite Ht, Ht1, (full_table_domains _ _ _ _ Hd1).
    unfold peersb. cbn [existsb]. fold (inb i g) (inb j g).
    destruct (negb (String.eqb i j)); cbn [andb]; [|reflexivity].
    destruct (existsb _ rest); [now rewrite orb_true_r|].
    rewrite orb_false_r. reflexivity.
Qed.

Lemma add_groups_registered (groups : list (list string)) :
  forall c,
    store_coherent c ->
    (forall g v, In g groups -> In v g -> In v (variables c)) ->
    exists c', add_groups groups c = Ok c' /\ store_coherent c'.
Proof.
  induction groups as [|g rest IH]; intros c Hc Hreg.
  - exists c. split; [reflexivity | exact Hc].
  - rewrite add_groups_cons.
    destruct (add_all_different_registered g c Hc) as (c1 & E1).
    { intros v Hv. apply (Hreg g v); [now left | exact Hv]. }
    rewrite E1.
    destruct (add_all_different_effect _ _ _ E1) as (Hv1 & _).
    apply IH.
    + now apply store_coherent_add_all_different with (1 := E1).
    + intros g0 v Hg Hv. rewrite Hv1. apply (Hreg g0 v); [now right | exact Hv].
Qed.

(** Three facts about the names, by computation. *)
Lemma sudoku_names_NoDup :
  NoDup (map (fun rc => cell_name (fst rc) (snd rc)) sudoku_cells).
Proof.
  assert (E : nodup string_dec
                (map (fun rc => cell_name (fst rc) (snd rc)) sudoku_cells)
              = map (fun rc => cell_name (fst rc) (snd rc)) sudoku_cells)
    by (vm_compute; reflexivity).
  rewrite <- E. apply NoDup_nodup.
Qed.

Lemma sudoku_groups_registered (g : list string) (v : string) :
  In g sudoku_groups -> In v g ->
  In v (map (fun rc => cell_name (fst rc) (snd rc)) sudoku_cells).
Proof.
  assert (E : forallb
                (fun g => forallb
                   (fun v => inb v (map (fun rc => cell_name (fst rc) (snd rc))
                                        sudoku_cells)) g)
                sudoku_groups = true) by (vm_compute; reflexivity).
  intros Hg Hv. rewrite forallb_forall in E. specialize (E g Hg).
  rewrite forallb_forall in E. apply inb_In. now apply E.
Qed.

Lemma sudoku_peers_units (r1 c1 r2 c2 : nat) :
  r1 < 9 -> c1 < 9 -> r2 < 9 -> c2 < 9 ->
  peersb sudoku_groups (cell_name r1 c1) (cell_name r2 c2) =
    negb (Nat.eqb r1 r2 && Nat.eqb c1 c2) && same_unit r1 c1 r2 c2.
Proof.
  assert (E : forallb
                (fun p : (nat * nat) * (nat * nat) =>
                   Bool.eqb
                     (peersb sudoku_groups
                        (cell_name (fst (fst p)) (snd (fst p)))
                        (cell_name (fst (snd p)) (snd (snd p))))
                     (negb (Nat.eqb (fst (fst p)) (fst (snd p)) &&
                            Nat.eqb (snd (fst p)) (snd (snd p))) &&
                      same_unit (fst (fst p)) (snd (fst p))
                                (fst (snd p)) (snd (snd p))))
                (list_prod sudoku_cells sudoku_cells) = true)
    by (vm_compute; reflexivity).
  intros H1 H2 H3 H4. rewrite forallb_forall in E.
  specialize (E ((r1, c1), (r2, c2))). cbn [fst snd] in E.
  apply Bool.eqb_prop. apply E. apply in_prod; now apply in_sudoku_cells.
Qed.

Lemma forallb_false_exists {A : Type} (f : A -> bool) (l : list A) :
  forallb f l = false -> exists x, In x l /\ f x = false.
Proof.
  induction l as [|x r IH]; simpl; [discriminate|].
  destruct (f x) eqn:E; simpl.
  - intros H. destruct (IH H) as (y & Hy & Ey). eauto.
  - intros _. eauto.
Qed.

Section SudokuBuilder.

Variable board : list string.

Let has_item (rc : nat * nat) : bool :=
  match board_item board (fst rc) (snd rc) with
  | Some _ => true
  | None => false
  end.

Lemma board_ok_forallb : forallb has_item sudoku_cells = true <-> board_ok board.
Proof.
  rewrite forallb_forall. unfold board_ok, has_item. split.
  - intros H row col Hr Hc.
    specialize (H (row, col) (proj2 (in_sudoku_cells row col) (conj Hr Hc))).
    simpl in H. destruct (board_item board row col); [discriminate|].
    discriminate.
  - intros H [row col] Hin. apply in_sudoku_cells in Hin. simpl.
    specialize (H row col (proj1 Hin) (proj2 Hin)).
    destruct (board_item board row col); [reflexivity | contradiction].
Qed.

(** The store after the first loops, and the calls that follow. *)
Lemma registered_store_facts :
  let c1 := register_cells board sudoku_cells CSP_init in
  variables c1 = map (fun rc => cell_name (fst rc) (snd rc)) sudoku_cells /\
  store_coherent c1 /\ tables_full c1 /\
  (forall i j, table_of c1 i j = None) /\
  exists c, add_groups sudoku_groups c1 = Ok c /\ store_coherent c.
Proof.
  intros c1.
  assert (Hv : variables c1
               = map (fun rc => cell_name (fst rc) (snd rc)) sudoku_cells).
  { unfold c1. rewrite register_cells_variables. apply app_nil_l. }
  assert (Hc : store_coherent c1).
  { unfold c1. apply register_cells_coherent. exact store_coherent_init. }
  assert (Hn : forall i j, table_of c1 i j = None).
  { unfold c1. apply register_cells_no_table. intros i j. reflexivity. }
  split; [exact Hv|]. split; [exact Hc|]. split; [|split; [exact Hn|]].
  - intros i j t Ht. rewrite Hn in Ht. discriminate Ht.
  - apply add_groups_registered; [exact Hc|].
    intros g v Hg Hin. rewrite Hv.
    exact (sudoku_groups_registered g v Hg Hin).
Qed.

Lemma create_sudoku_csp_unfold :
  create_sudoku_csp board =
    if forallb has_item sudoku_cells then
      match add_groups sudoku_groups
              (register_cells board sudoku_cells CSP_init) with
      | Ok c => Built c
      | Raise e => Failed (StoreError e)
      end
    else Failed IndexError.
Proof.
  unfold create_sudoku_csp. rewrite add_cells_result.
  change (fun rc : nat * nat =>
            match board_item board (fst rc) (snd rc) with
            | Some _ => true
            | None => false
            end) with has_item.
  destruct (forallb has_item sudoku_cells); reflexivity.
Qed.

Lemma create_sudoku_csp_cases :
  (forallb has_item sudoku_cells = true /\
   exists c, create_sudoku_csp board = Built c /\
             add_groups sudoku_groups
               (register_cells board sudoku_cells CSP_init) = Ok c) \/
  (forallb has_item sudoku_cells = false /\
   create_sudoku_csp board = Failed IndexError).
Proof.
  rewrite create_sudoku_csp_unfold.
  destruct (forallb has_item sudoku_cells).
  - left. split; [reflexivity|].
    destruct registered_store_facts as (_ & _ & _ & _ & c & Hc & _).
    exists c. rewrite Hc. split; reflexivity.
  - right. split; reflexivity.
Qed.

End SudokuBuilder.

(** X17. The Sudoku builder fails only with [IndexError], and exactly when
    a character is missing among the nine first characters of the nine first
    lines; on every other board it returns a store. No [KeyError] of the
    store can come out of it. *)
Theorem create_sudoku_csp_errors (board : list string) :
  (forall e, create_sudoku_csp board <> Failed (StoreError e)) /\
  (create_sudoku_csp board = Failed IndexError <->
   exists row col, row < 9 /\ col < 9 /\ board_item board row col = None) /\
  (board_ok board <-> exists c, create_sudoku_csp board = Built c).
Proof.
  destruct (create_sudoku_csp_cases board)
    as [(Hall & c & Hb & _)|(Hall & Hf)].
  - apply board_ok_forallb in Hall. split; [|split].
    + intros e. rewrite Hb. discriminate.
    + rewrite Hb. split; [discriminate|].
      intros (row & col & Hr & Hc & Hn). now apply (Hall row col) in Hn.
    + split; [eauto | intros _; exact Hall].
  - split; [|split].
    + intros e. rewrite Hf. discriminate.
    + split; [|intros _; exact Hf]. intros _.
      apply forallb_false_exists in Hall.
      destruct Hall as ([row col] & Hin & Hn). apply in_sudoku_cells in Hin.
      exists row, col. simpl in Hn.
      destruct (board_item board row col); [discriminate|]. tauto.
    + rewrite Hf. split; [|intros (c & Hc); discriminate].
      intros Hok. apply board_ok_forallb in Hok. congruence.
Qed.

Lemma create_sudoku_csp_errors_witness :
  create_sudoku_csp ["530070000"; "6001"] = Failed IndexError.
Proof.
  apply (proj1 (proj2 (create_sudoku_csp_errors ["530070000"; "6001"]))).
  exists 1, 4. repeat split; [lia | lia].
Defined.

(** X18. The store the Sudoku builder returns has the 81 cells as its
    variables, row by row; a cell with ['0'] has the domain ['1'] to ['9'] and
    any other cell has its character as only value; two different cells of
    the same row, column or box have as table all pairs of different values
    of their domains, and no other pair of names has a table. *)
Theorem create_sudoku_csp_store (board : list string) (c : CSP) :
  create_sudoku_csp board = Built c ->
  variables c = map (fun rc => cell_name (fst rc) (snd rc)) sudoku_cells /\
  store_coherent c /\
  (forall row col, row < 9 -> col < 9 ->
     exists ch, board_item board row col = Some ch /\
       dict_get (cell_name row col) (domains c) = Some (sudoku_domain ch)) /\
  (forall r1 c1 r2 c2, r1 < 9 -> c1 < 9 -> r2 < 9 -> c2 < 9 ->
     table_of c (cell_name r1 c1) (cell_name r2 c2) =
       if negb (Nat.eqb r1 r2 && Nat.eqb c1 c2) && same_unit r1 c1 r2 c2
       then Some (legal_pairs not_equal
                    (get_all_possible_pairs (cell_domain board (r1, c1))
                                            (cell_domain board (r2, c2))))
       else None) /\
  (forall i j, ~ peers sudoku_groups i j -> table_of c i j = None).
Proof.
  intros Hb.
  destruct (create_sudoku_csp_cases board)
    as [(Hall & c0 & Hb0 & Hg)|(_ & Hf)]; [|congruence].
  rewrite Hb in Hb0. inversion Hb0. subst c0. clear Hb0.
  apply board_ok_forallb in Hall.
  destruct (registered_store_facts board) as (Hv1 & Hc1 & Hfull1 & Hn1 & c' & Hg' & Hc').
  rewrite Hg in Hg'. inversion Hg'. subst c'. clear Hg'.
  destruct (add_groups_tables _ _ _ Hg Hfull1) as (Hv & Hd & _ & Ht).
  assert (Hdom : forall row col, row < 9 -> col < 9 ->
            dict_get (cell_name row col) (domains c)
            = Some (cell_domain board (row, col))).
  { intros row col Hr Hc.
    pose proof (register_cells_domain board sudoku_cells sudoku_names_NoDup
                  CSP_init (row, col)
                  (proj2 (in_sudoku_cells row col) (conj Hr Hc))) as Hx.
    cbn [fst snd] in Hx. rewrite Hd. exact Hx. }
  split; [congruence|]. split; [exact Hc'|]. split; [|split].
  - intros row col Hr Hc. rewrite (Hdom row col Hr Hc). unfold cell_domain.
    simpl. specialize (Hall row col Hr Hc).
    destruct (board_item board row col) as [ch|]; [eauto | contradiction].
  - intros r1 c1 r2 c2 H1 H2 H3 H4.
    rewrite Ht, Hn1, (sudoku_peers_units r1 c1 r2 c2 H1 H2 H3 H4).
    destruct (negb (Nat.eqb r1 r2 && Nat.eqb c1 c2) && same_unit r1 c1 r2 c2);
      [|reflexivity].
    unfold full_table. rewrite <- Hd.
    now rewrite (Hdom r1 c1 H1 H2), (Hdom r2 c2 H3 H4).
  - intros i j Hn. rewrite Ht, Hn1.
    destruct (peersb sudoku_groups i j) eqn:E; [|reflexivity].
    apply peersb_spec in E. contradiction.
Qed.

Lemma create_sudoku_csp_store_witness :
  table_of (built_store (create_sudoku_csp sample_board))
           (cell_name 0 0) (cell_name 0 1) =
    Some [(PStr "5", PStr "3")] /\
  table_of (built_store (create_sudoku_csp sample_board))
           (cell_name 0 0) (cell_name 4 4) = None.
Proof.
  destruct (create_sudoku_csp_store sample_board
              (built_store (create_sudoku_csp sample_board)))
    as (_ & _ & _ & Ht & _); [vm_compute; reflexivity|].
  split.
  - rewrite (Ht 0 0 0 1) by lia. reflexivity.
  - rewrite (Ht 0 0 4 4) by lia. reflexivity.
Defined.

(* ================================================================= *)
(** ** Propagation keeps the solutions *)

Lemma pyval_eq_dec (x y : pyval) : {x = y} + {x <> y}.
Proof.
  destruct (pyval_eqb x y) eqn:E.
  - left. now apply pyval_eqb_eq.
  - right. intros H. apply pyval_eqb_eq in H. congruence.
Qed.

(** The test of [revise] looks the table up as soon as [j] has a value. *)
Lemma unsupported_table (c : CSP) (i j : string) (x y : pyval) (dj : pydom)
    (ys : list pyval) (u : bool) :
  unsupported c i j x dj = Ok u -> py_iter dj = Ok ys -> In y ys ->
  exists t, table_of c i j = Some t.
Proof.
  unfold unsupported. intros H Hys Hy. rewrite Hys in H. cbn [bind] in H.
  rewrite pairs_of_one in H. destruct ys as [|y0 ys0]; [destruct Hy|].
  unfold count_legal, table_of, dict_item in *. cbn [map] in H.
  destruct (dict_get i (constraints c)) as [m|]; cbn [bind] in H;
    [|discriminate].
  destruct (dict_get j m) as [t|]; [eauto | discriminate].
Qed.

Section KeepsSolutions.

Variable c : CSP.
Variable s : string -> pyval.
Hypothesis Hsat : satisfies c s.

Lemma revise_holds (a a' : assignment) (i j : string) (b : bool) :
  i <> j -> holds a s -> revise c a i j = Ok (b, a') -> holds a' s.
Proof.
  intros Hne Hh H.
  destruct (revise_inv _ _ _ _ _ _ H)
    as [(l & l' & Hg & Hl & ->)|(s0 & Hg & Hs & ->)]; [|exact Hh].
  intros k d Hk. destruct (string_dec k i) as [->|Nk].
  2:{ rewrite dict_get_set_other in Hk by exact Nk. now apply Hh. }
  rewrite dict_get_set_same in Hk. inversion Hk. subst d.
  exists l'. split; [reflexivity|].
  destruct (Hh i _ Hg) as (xs & Hxs & Hin). simpl in Hxs. inversion Hxs.
  subst xs.
  destruct (in_dec pyval_eq_dec (s i) l') as [Hin'|Hnot]; [exact Hin'|].
  exfalso.
  assert (Eji : String.eqb j i = false) by (apply String.eqb_neq; congruence).
  destruct (dict_item j a) as [dj|e] eqn:Hdj.
  - pose proof (revise_list_dropped c a i j dj _ Eji Hdj _ _ _ _ _ Hl
                  (s i) Hin Hnot) as Hu.
    unfold dict_item in Hdj. destruct (dict_get j a) as [dj0|] eqn:Hgj;
      [|discriminate]. inversion Hdj. subst dj0.
    destruct (Hh j dj Hgj) as (ys & Hys & Hsj).
    destruct (unsupported_table _ _ _ _ _ _ _ _ Hu Hys Hsj) as (t & Ht).
    destruct (unsupported_true_inv _ _ _ _ _ Hu) as (ys' & Hys' & Hno).
    rewrite Hys in Hys'. inversion Hys'. subst ys'.
    apply (Hno t (s j) Ht Hsj). now apply Hsat.
  - destruct l as [|x0 r]; [destruct Hin|].
    simpl in Hl. rewrite Eji, Hdj in Hl. discriminate.
Qed.

Hypothesis Hself : no_self_table c.

Lemma inference_round_holds (a : assignment) (q : list arc) (r : round) :
  Forall (fun ij : arc => fst ij <> snd ij) q ->
  holds a s -> inference_round c a q = Ok r ->
  match r with
  | Return _ a1 => holds a1 s
  | Continue a1 q1 =>
      holds a1 s /\ Forall (fun ij : arc => fst ij <> snd ij) q1
  end.
Proof.
  intros Hq Hh. unfold inference_round.
  destruct (list_pop q) as [[[i j] q1]|] eqn:Hp.
  2:{ intros H. inversion H. exact Hh. }
  apply list_pop_Some in Hp. subst q.
  apply Forall_app in Hq. destruct Hq as [Hq1 Hij].
  inversion Hij as [|? ? Hne _]. subst. simpl in Hne.
  destruct (revise c a i j) as [[revised a1]|e] eqn:Hr; cbn [bind];
    [|discriminate].
  pose proof (revise_holds _ _ _ _ _ Hne Hh Hr) as Hh1.
  destruct revised.
  - destruct (dict_item i a1) as [di|]; cbn [bind]; [|discriminate].
    destruct (py_not di); [intros H; inversion H; exact Hh1|].
    unfold get_all_neighboring_arcs, dict_item.
    destruct (dict_get i (constraints c)) as [m|] eqn:Hm; cbn [bind];
      [|discriminate].
    intros H. inversion H. split; [exact Hh1|].
    rewrite requeue_fold, map_map. cbn [fst]. rewrite map_id.
    apply Forall_app. split; [exact Hq1|].
    apply Forall_forall. intros [k v] Hin.
    apply in_map_iff in Hin. destruct Hin as (k0 & E & Hk0).
    inversion E. subst. apply filter_In in Hk0. destruct Hk0 as [Hk0 _].
    simpl. intros ->. apply dict_get_keys in Hk0.
    specialize (Hself v). unfold table_of in Hself. rewrite Hm in Hself.
    contradiction.
  - intros H. inversion H. split; [exact Hh1 | exact Hq1].
Qed.

Lemma inference_holds (fuel : nat) :
  forall a q b a',
    Forall (fun ij : arc => fst ij <> snd ij) q ->
    holds a s -> inference fuel c a q = Some (Ok (b, a')) -> holds a' s.
Proof.
  induction fuel as [|n IH]; intros a q b a' Hq Hh; [discriminate|].
  rewrite inference_unfold.
  destruct (inference_round c a q) as [[b1 a1|a1 q1]|e] eqn:Hr;
    [| |discriminate].
  - apply (inference_round_holds _ _ _ Hq Hh) in Hr.
    intros H. inversion H. now subst.
  - apply (inference_round_holds _ _ _ Hq Hh) in Hr. destruct Hr as [Hh1 Hq1].
    now apply IH with (q := q1).
Qed.

End KeepsSolutions.

(** X19. Propagation keeps every solution: on a store where no variable is
    constrained with itself, if [s] satisfies every table and gives each
    variable a value of its slot, then after [inference] on the queue of all
    arcs (or on any queue of arcs between different variables) the value of
    each variable is still in its slot. *)
Theorem inference_keeps_solutions (c : CSP) (s : string -> pyval)
    (fuel : nat) (a a' : assignment) (queue : list arc) (b : bool) :
  wf_store c -> satisfies c s -> no_self_table c -> holds a s ->
  (queue = get_all_arcs c \/
   Forall (fun ij : arc => fst ij <> snd ij) queue) ->
  inference fuel c a queue = Some (Ok (b, a')) ->
  holds a' s.
Proof.
  intros Hwf Hsat Hself Hh Hq H.
  apply (inference_holds c s Hsat Hself fuel a queue b a'); auto.
  destruct Hq as [->|Hq]; [|exact Hq].
  apply Forall_forall. intros [i j] Hin. simpl. intros ->.
  apply (get_all_arcs_table c j j Hwf Hin). apply Hself.
Qed.

Lemma inference_keeps_solutions_witness :
  holds [("A", DList [PInt 2]); ("B", DList [PInt 1])]
        (fun k => if String.eqb k "A" then PInt 2 else PInt 1).
Proof.
  apply (inference_keeps_solutions (store_of one_way)
           (fun k => if String.eqb k "A" then PInt 2 else PInt 1) 5
           [("A", DList [PInt 1; PInt 2]); ("B", DList [PInt 1])]
           [("A", DList [PInt 2]); ("B", DList [PInt 1])]
           (get_all_arcs (store_of one_way)) true).
  - unfold wf_store. simpl. repeat constructor; simpl; intuition discriminate.
  - intros i j t Ht. unfold table_of in Ht.
    change (constraints (store_of one_way))
      with [("A", [("B", [(PInt 1, PInt 2); (PInt 2, PInt 1)])]);
            ("B", @nil (string * table))] in Ht.
    cbn [dict_get] in Ht.
    destruct (String.eqb i "A") eqn:Ei.
    + cbn [dict_get] in Ht.
      destruct (String.eqb j "B") eqn:Ej; [|discriminate Ht].
      inversion Ht. apply String.eqb_eq in Ej. subst j.
      right. left. reflexivity.
    + destruct (String.eqb i "B"); cbn [dict_get] in Ht; discriminate Ht.
  - intros i. unfold table_of.
    change (constraints (store_of one_way))
      with [("A", [("B", [(PInt 1, PInt 2); (PInt 2, PInt 1)])]);
            ("B", @nil (string * table))].
    cbn [dict_get].
    destruct (String.eqb i "A") eqn:Ei.
    + apply String.eqb_eq in Ei. subst i. reflexivity.
    + destruct (String.eqb i "B"); reflexivity.
  - intros k d Hk. cbn [dict_get] in Hk.
    destruct (String.eqb k "A") eqn:Ek.
    + inversion Hk. exists [PInt 1; PInt 2].
      split; [reflexivity | right; left; reflexivity].
    + cbn [dict_get] in Hk.
      destruct (String.eqb k "B"); [|discriminate Hk].
      inversion Hk. exists [PInt 1].
      split; [reflexivity | left; reflexivity].
  - left. reflexivity.
  - reflexivity.
Defined.

(* ================================================================= *)
(** ** [select_unassigned_variable] returns a variable *)

Lemma py_min_In (a : assignment) (rest : list string) :
  forall best kbest v,
    py_min a best kbest rest = Ok v -> v = best \/ In v rest.
Proof.
  induction rest as [|w r IH]; intros best kbest v; cbn [py_min].
  - intros H. inversion H. now left.
  - destruct (mrv_key a w) as [k|e]; cbn [bind]; [|discriminate].
    destruct (key_lt k kbest); intros H; apply IH in H.
    + destruct H as [->|H]; right; [now left | now right].
    + destruct H as [->|H]; [now left | right; now right].
Qed.

(** X20. Whenever [select_unassigned_variable] returns, what it returns is
    a variable of the assignment, and every slot has a length: a slot that
    holds an int makes it raise. *)
Theorem select_unassigned_variable_key (a : assignment) (v : string) :
  NoDup (dict_keys a) ->
  select_unassigned_variable a = Ok v ->
  In v (dict_keys a) /\
  forall k d, In (k, d) a -> exists n, py_len d = Ok n.
Proof.
  intros Hnd H. split.
  - unfold select_unassigned_variable in H.
    destruct (dict_keys a) as [|v0 rest]; [discriminate|].
    destruct (mrv_key a v0) as [k|e]; cbn [bind] in H; [|discriminate].
    apply py_min_In in H. destruct H as [->|H]; [now left | now right].
  - assert (G : forall rest best kbest w,
               py_min a best kbest rest = Ok w ->
               forall k, In k rest -> exists key, mrv_key a k = Ok key).
    { induction rest as [|w0 r IH]; intros best kbest w Hm k Hk;
        [destruct Hk|]. cbn [py_min] in Hm.
      destruct (mrv_key a w0) as [key|e] eqn:E; cbn [bind] in Hm;
        [|discriminate].
      destruct Hk as [->|Hk]; [eauto|].
      destruct (key_lt key kbest); eapply IH; eauto. }
    intros k d Hin.
    assert (Hkey : exists key, mrv_key a k = Ok key).
    { unfold select_unassigned_variable in H.
      assert (Hk : In k (dict_keys a))
        by (apply (in_map fst) in Hin; exact Hin).
      destruct (dict_keys a) as [|v0 rest]; [destruct Hk|].
      destruct (mrv_key a v0) as [key|e] eqn:E; cbn [bind] in H;
        [|discriminate].
      destruct Hk as [->|Hk]; [eauto|]. eapply G; eauto. }
    destruct Hkey as (key & Hkey). unfold mrv_key, dict_item in Hkey.
    rewrite (In_dict_get _ _ _ Hnd Hin) in Hkey. cbn [bind] in Hkey.
    destruct (py_len d) as [n|e]; [eauto | discriminate].
Qed.

Lemma select_unassigned_variable_key_witness :
  In "C" (dict_keys [("A", DList [PInt 1; PInt 2; PInt 3]);
                     ("B", DList [PInt 1]); ("C", DList [PInt 1; PInt 2])]) /\
  forall k d,
    In (k, d) [("A", DList [PInt 1; PInt 2; PInt 3]); ("B", DList [PInt 1]);
               ("C", DList [PInt 1; PInt 2])] ->
    exists n, py_len d = Ok n.
Proof.
  apply (select_unassigned_variable_key
           [("A", DList [PInt 1; PInt 2; PInt 3]); ("B", DList [PInt 1]);
            ("C", DList [PInt 1; PInt 2])] "C").
  - simpl. repeat constructor; simpl; intuition discriminate.
  - reflexivity.
Defined.

